(** * Need-versus-capacity pipeline of [plots.ipynb]

    A shallow embedding of the data-handling core of the script: the unit
    normalizer ([load_ihme]), the year reconciler
    ([choose_actionable_year]), the sex-split guard of
    [plot_micro_age_sex] and the join and ranking of [plot_actionable].

    Conventions.
    - A data frame is the list of its rows, in row order.
    - A cell of a numeric column is an [option]: [None] is pandas' NaN.
      Measured values are exact rationals ([Q]); their binary64 rounding
      and infinite values are outside the model.  The two worked examples
      of the priority index are checked on binary64 as well, and its
      order is studied under an arbitrary monotone rounding.
    - A year is a float too, whole or not, finite or infinite, since the
      conversions to integers of lines 78, 85 and 90, which are modelled,
      tell these apart.  A finite year is kept in canonical form ([Qc])
      so that equal years are equal terms.
    - [sort_values] on one column runs numpy's "quicksort", which leaves
      equal keys in an order that depends on the installation; the model
      takes that routine as a parameter, any sorting routine.  Sorts on
      several columns and Python's [sorted] are stable.
    - A cell of a text column is an [option string]: [None] is the NaN that
      [read_csv] puts in an empty field.
    - Drawing (matplotlib) is not modelled; each plotting function is
      embedded up to the data it hands to the chart. *)

From Stdlib Require Import List ZArith QArith Qcanon String Ascii Bool Lia.
From Stdlib Require Import Permutation Sorted PrimFloat Qround Lqa.
Import ListNotations.

Local Open Scope Q_scope.
Local Open Scope string_scope.
Local Open Scope list_scope.

(** ** Rows *)

(** A year cell that is not NaN: a finite float, or one of the two
    infinities, which [read_csv] and [to_numeric] accept. *)
Inductive Year : Type :=
| Finite (q : Qc)
| Infinite (negative : bool).

(** A row of an IHME export after the renaming of [load_ihme], lines 30-38. *)
Record Observation := mkObservation {
  location : option string;
  sex : option string;
  age : option string;
  cause : option string;
  measure : option string;
  metric : option string;
  value : option Q;
  upper : option Q;
  lower : option Q;
  year : option Year
}.

(** An IHME frame: which optional columns the file has, and the rows. *)
Record IhmeFrame := mkIhmeFrame {
  has_metric : bool;
  has_upper : bool;
  has_lower : bool;
  rows : list Observation
}.

(** A row of [load_psychiatrists], line 64. *)
Record CapacityRecord := mkCapacityRecord {
  psy_location : option string;
  psy_year : option Year;
  psy_per100k : option Q
}.

(** A row of [merged] once line 177 has attached the derived column. *)
Record JoinedRecord := mkJoinedRecord {
  need : Observation;
  capacity : CapacityRecord;
  priority_index : option Q
}.

(** What the script can raise.  The two [ValueError]s are told apart by
    their message and carry the data the message prints. *)
Inductive Exception :=
| NoOverlapError (ihme_years psych_years : list Z)
| MissingSexSplitError (sexes_present : list (option string))
| TypeError
| OverflowError.

(** ** Cells and columns *)

Definition notna {A : Type} (c : option A) : bool :=
  match c with Some _ => true | None => false end.

Definition isna {A : Type} (c : option A) : bool := negb (notna c).

(** [Series.dropna()] on a column. *)
Fixpoint dropna {A : Type} (col : list (option A)) : list A :=
  match col with
  | [] => []
  | Some v :: t => v :: dropna t
  | None :: t => dropna t
  end.

Definition Z_eq_dec : forall a b : Z, {a = b} + {a <> b} := Z.eq_dec.

Definition text_eq_dec (a b : option string) : {a = b} + {a <> b}.
Proof. decide equality. apply string_dec. Defined.

Definition text_eqb (a b : option string) : bool :=
  if text_eq_dec a b then true else false.

(** The float that holds an integer. *)
Definition whole (y : Z) : Year := Finite (Q2Qc (inject_Z y)).

Definition Year_eq_dec (a b : Year) : {a = b} + {a <> b}.
Proof. decide equality; [apply Qc_eq_dec|apply Bool.bool_dec]. Defined.

(** Equality of two year cells: NaN compares unequal. *)
Definition year_eqb (a b : option Year) : bool :=
  match a, b with
  | Some x, Some y => if Year_eq_dec x y then true else false
  | _, _ => false
  end.

(** [col == y] for an integer [y]. *)
Definition year_is (y : Z) (c : option Year) : bool :=
  year_eqb c (Some (whole y)).

(** The order of the floats. *)
Definition year_leb (a b : Year) : bool :=
  match a, b with
  | Infinite true, _ => true
  | _, Infinite false => true
  | Finite x, Finite y => Qle_bool x y
  | _, _ => false
  end.

Definition year_le (a b : Year) : Prop :=
  match a, b with
  | Infinite true, _ => True
  | _, Infinite false => True
  | Finite x, Finite y => x <= y
  | _, _ => False
  end.

(** A finite float without its fractional part. *)
Definition truncate (q : Qc) : Z :=
  if Qle_bool 0 q then Qfloor q else Qceiling q.

(** Python's [int(y)] on a float: the fractional part is dropped, and an
    infinity raises [OverflowError]. *)
Definition int_of (a : Year) : Exception + Z :=
  match a with
  | Finite q => inr (truncate q)
  | Infinite _ => inl OverflowError
  end.

(** numpy's [astype(int)] on a float64: the truncation within the range of
    int64; out of it, the infinities included, C leaves the conversion
    undefined, and numpy on x86-64 gives the smallest int64. *)
Definition astype_int64 (a : Year) : Z :=
  match a with
  | Finite q =>
      let z := truncate q in
      if ((- 2 ^ 63 <=? z) && (z <? 2 ^ 63))%Z then z else (- 2 ^ 63)%Z
  | Infinite _ => (- 2 ^ 63)%Z
  end.

(** [col.isin(names)] for a list of strings. *)
Definition isin (c : option string) (names : list string) : bool :=
  match c with
  | Some s => existsb (String.eqb s) names
  | None => false
  end.

(** [col > 0]: NaN compares false. *)
Definition gt0 (c : option Q) : bool :=
  match c with
  | Some q => negb (Qle_bool q 0)
  | None => false
  end.

(** [col *= 100]: NaN stays NaN. *)
Definition times100 (c : option Q) : option Q :=
  match c with
  | Some q => Some (q * 100)
  | None => None
  end.

(** [Series.max()]: NaN is skipped, and the result is NaN when nothing is
    left. *)
Fixpoint series_max (col : list (option Q)) : option Q :=
  match col with
  | [] => None
  | None :: t => series_max t
  | Some v :: t =>
      match series_max t with
      | None => Some v
      | Some m => Some (if Qle_bool v m then m else v)
      end
  end.

(** [m <= 1.0] on the result of [max()]: false on NaN. *)
Definition le1 (c : option Q) : bool :=
  match c with
  | Some m => Qle_bool m 1
  | None => false
  end.

(** ** Text *)

Definition lower_ascii (c : ascii) : ascii :=
  let n := nat_of_ascii c in
  if (65 <=? n)%nat && (n <=? 90)%nat then ascii_of_nat (n + 32) else c.

Fixpoint lower_string (s : string) : string :=
  match s with
  | EmptyString => EmptyString
  | String c t => String (lower_ascii c) (lower_string t)
  end.

Fixpoint substring_of (pat s : string) : bool :=
  prefix pat s ||
  match s with
  | EmptyString => false
  | String _ t => substring_of pat t
  end.

(** [astype(str)]: NaN becomes the text "nan". *)
Definition astype_str (c : option string) : string :=
  match c with
  | Some s => s
  | None => "nan"
  end.

(** [str.contains(pat, case=False)] for a pattern without regex
    metacharacters. *)
Definition str_contains_nocase (pat s : string) : bool :=
  substring_of (lower_string pat) (lower_string s).

(** ** Sorting *)

Section Argsort.
Context {A : Type} (leb : A -> A -> bool).

Fixpoint insert (x : A) (l : list A) : list A :=
  match l with
  | [] => [x]
  | y :: t => if leb x y then x :: y :: t else y :: insert x t
  end.

(** A stable ascending sort, for Python's [sorted] and for pandas' sorts on
    several columns.  The result of a stable sort is determined by the
    input, so the algorithm chosen does not matter. *)
Fixpoint argsort (l : list A) : list A :=
  match l with
  | [] => []
  | x :: t => insert x (argsort t)
  end.

(** Stability, as a relation between an earlier and a later row of the
    sorted list: the key of the earlier is not larger, and when the keys
    tie the earlier row came [before] the later in the input. *)
Definition stably (before : A -> A -> Prop) (a b : A) : Prop :=
  leb a b = true /\ (leb b a = true -> before a b).
End Argsort.

(** numpy's [argsort(kind="quicksort")], the default of [sort_values] on
    one column: it arranges the rows in ascending order of the key, and
    that is all that is known of it; where it puts rows with equal keys
    changes with the numpy build and the processor. *)
Definition Quicksort : Type :=
  forall A : Type, (A -> A -> bool) -> list A -> list A.

(** What makes a routine a sort: on a total and transitive comparison it
    returns the rows it was given, in ascending order. *)
Definition sorts (quick : Quicksort) : Prop :=
  forall (A : Type) (leb : A -> A -> bool) (l : list A),
    (forall a b, leb a b = true \/ leb b a = true) ->
    (forall a b c, leb a b = true -> leb b c = true -> leb a c = true) ->
    Permutation l (quick A leb l) /\
    StronglySorted (fun a b => leb a b = true) (quick A leb l).

(** Two such routines: one leaves equal keys in input order, the other in
    the opposite order. *)
Definition stable_sort : Quicksort := fun A leb l => argsort leb l.

Definition reversing_sort : Quicksort := fun A leb l => argsort leb (rev l).

(** pandas' [nargsort(..., ascending=False, na_position="last")], which
    is what [sort_values(ascending=False)] runs: the rows without NaN
    key are reversed, sorted ascending and reversed again, and the rows
    with NaN key follow. *)
Definition sort_values_desc {A : Type} (quick : Quicksort)
    (leb : A -> A -> bool) (key_isna : A -> bool) (l : list A) : list A :=
  rev (quick A leb (rev (filter (fun r => negb (key_isna r)) l)))
  ++ filter key_isna l.

(** Python's [sorted] on integers. *)
Definition sorted (l : list Z) : list Z := argsort Z.leb l.

(** [DataFrame.head(n)] and the slice [[:n]]. *)
Definition head {A : Type} (n : nat) (l : list A) : list A := firstn n l.

(** ** Unit normalizer: [load_ihme], lines 45-51

    The argument is the frame after [read_csv], the renaming and the
    [to_numeric] coercions, which leave NaN where a field does not parse. *)

Definition is_percent (df : IhmeFrame) : bool :=
  existsb (fun r => str_contains_nocase "Percent" (astype_str (metric r)))
          (rows df).

Definition rescale (df : IhmeFrame) (r : Observation) : Observation :=
  mkObservation (location r) (sex r) (age r) (cause r) (measure r) (metric r)
    (times100 (value r))
    (if has_upper df then times100 (upper r) else upper r)
    (if has_lower df then times100 (lower r) else lower r)
    (year r).

Definition load_ihme (df : IhmeFrame) : IhmeFrame :=
  if has_metric df then
    if is_percent df && le1 (series_max (map value (rows df))) then
      mkIhmeFrame (has_metric df) (has_upper df) (has_lower df)
                  (map (rescale df) (rows df))
    else df
  else df.

(** What it is for an output cell to be 100 times the input cell: a
    number becomes that number times 100, a missing value stays missing. *)
Definition hundred_times (i o : option Q) : Prop :=
  (forall v, i = Some v -> o = Some (v * 100)) /\ (i = None -> o = None).

(** What it is for an output row to be the input row on a scale of 100:
    the value is, and so are upper and lower when the file has them. *)
Definition hundredfold (df : IhmeFrame) (i o : Observation) : Prop :=
  hundred_times (value i) (value o) /\
  (has_upper df = true -> hundred_times (upper i) (upper o)) /\
  (has_lower df = true -> hundred_times (lower i) (lower o)).

(** What it is for a label to contain "percent", letter case aside. *)
Definition names_percent (label : string) : Prop :=
  exists before after,
    lower_string label = (before ++ "percent" ++ after)%string.

(** ** Year reconciler: [choose_actionable_year], lines 77-93 *)

(** [set(col.dropna().unique().astype(int))]; a set is kept as a
    duplicate-free list, whose order nothing below depends on. *)
Definition year_set (col : list (option Year)) : list Z :=
  nodup Z_eq_dec (map astype_int64 (dropna col)).

Definition need_years (need_all : list Observation) : list Z :=
  year_set (map year need_all).

(** [psy.dropna(subset=["psy_per100k"])]. *)
Definition with_capacity (psy : list CapacityRecord) : list CapacityRecord :=
  filter (fun c => notna (psy_per100k c)) psy.

(** [nunique()] of the locations of one year group: distinct non-missing
    locations. *)
Definition coverage (psy : list CapacityRecord) (a : Year) : nat :=
  List.length
    (nodup string_dec
       (dropna (map psy_location
                    (filter (fun c => year_eqb (psy_year c) (Some a))
                            (with_capacity psy))))).

(** The group keys of [groupby("year")]: the non-missing years, as the
    floats they are, of the rows that have a capacity value. *)
Definition capacity_years (psy : list CapacityRecord) : list Year :=
  nodup Year_eq_dec (dropna (map psy_year (with_capacity psy))).

(** [groupby("year")["location"].nunique()]: one entry per group, keys
    ascending. *)
Definition nunique_by_year (psy : list CapacityRecord) : list (Year * nat) :=
  map (fun a => (a, coverage psy a)) (argsort year_leb (capacity_years psy)).

Definition count_leb (a b : Year * nat) : bool := (snd a <=? snd b)%nat.

Definition psy_counts (quick : Quicksort) (psy : list CapacityRecord)
  : list (Year * nat) :=
  sort_values_desc quick count_leb (fun _ => false) (nunique_by_year psy).

(** [[int(y) for y in index if int(y) in need_years]]: [int] runs on
    every key in turn, and the first key on which it raises ends the
    comprehension. *)
Fixpoint comprehension (need_years : list Z) (index : list Year)
  : Exception + list Z :=
  match index with
  | [] => inr []
  | a :: rest =>
      match int_of a with
      | inl e => inl e
      | inr y =>
          match comprehension need_years rest with
          | inl e => inl e
          | inr ys =>
              inr (if existsb (Z.eqb y) need_years then y :: ys else ys)
          end
      end
  end.

Definition candidates (quick : Quicksort) (need_all : list Observation)
    (psy : list CapacityRecord) : Exception + list Z :=
  comprehension (need_years need_all) (map fst (psy_counts quick psy)).

Definition choose_actionable_year (quick : Quicksort)
    (need_all : list Observation) (psy : list CapacityRecord)
  : Exception + Z :=
  match candidates quick need_all psy with
  | inl e => inl e
  | inr [] =>
      inl (NoOverlapError
             (head 10 (sorted (need_years need_all)))
             (head 10 (sorted (year_set (map psy_year psy)))))
  | inr (y :: _) => inr y
  end.

(** *** The words of the claims about the reconciler *)

(** [y] is what is left of the finite float [q] when its fractional part
    is dropped. *)
Definition integer_part (q : Qc) (y : Z) : Prop :=
  (0 <= q -> inject_Z y <= q /\ q < inject_Z (y + 1)) /\
  (q <= 0 -> inject_Z (y - 1) < q /\ q <= inject_Z y).

(** [y] is the float [a] converted to int64: its integer part when that
    fits, the smallest int64 when it does not or when [a] is infinite. *)
Definition int64_of (a : Year) (y : Z) : Prop :=
  match a with
  | Finite q =>
      exists t, integer_part q t /\
                (((- 2 ^ 63 <= t < 2 ^ 63)%Z /\ y = t) \/
                 (~ (- 2 ^ 63 <= t < 2 ^ 63)%Z /\ y = (- 2 ^ 63)%Z))
  | Infinite _ => y = (- 2 ^ 63)%Z
  end.

(** A need year: the year of a need row, as an integer. *)
Definition is_need_year (need_all : list Observation) (y : Z) : Prop :=
  exists r a, In r need_all /\ year r = Some a /\ int64_of a y.

(** A capacity year: the year of a capacity row that has a capacity
    value. *)
Definition is_capacity_year (psy : list CapacityRecord) (a : Year) : Prop :=
  exists c v, In c psy /\ psy_year c = Some a /\ psy_per100k c = Some v.

(** The two year sets meet: some finite capacity year has a need year as
    its integer part. *)
Definition years_meet (need_all : list Observation)
    (psy : list CapacityRecord) : Prop :=
  exists q y, is_capacity_year psy (Finite q) /\ integer_part q y /\
              is_need_year need_all y.

(** A year of the capacity file: the year of any of its rows, as an
    integer. *)
Definition is_file_year (psy : list CapacityRecord) (y : Z) : Prop :=
  exists c a, In c psy /\ psy_year c = Some a /\ int64_of a y.

(** [locs] lists, each once, the locations that have a capacity value in
    the year [a]; its length is the coverage of the year. *)
Definition locations_of (psy : list CapacityRecord) (a : Year)
    (locs : list string) : Prop :=
  NoDup locs /\
  forall s, In s locs <->
            exists c v, In c psy /\ psy_year c = Some a /\
                        psy_per100k c = Some v /\ psy_location c = Some s.

(** [shown] is the first ten, in ascending order, of the integers that
    satisfy [P], or all of them when there are fewer. *)
Definition preview_of (P : Z -> Prop) (shown : list Z) : Prop :=
  StronglySorted Z.lt shown /\
  (List.length shown <= 10)%nat /\
  (forall y, In y shown -> P y) /\
  (forall y, P y -> ~ In y shown ->
             List.length shown = 10%nat /\ forall s, In s shown -> (s < y)%Z).

(** ** Sex-split guard: [plot_micro_age_sex], lines 112-122 *)

(** [set(col.unique())]. *)
Definition text_set (col : list (option string)) : list (option string) :=
  nodup text_eq_dec col.

Definition text_leb (a b : option string) : bool :=
  match a, b with
  | Some s, Some t => String.leb s t
  | _, _ => true
  end.

(** [sorted(list(sexes))] inside the message: comparing NaN (a float) with
    a [str] raises [TypeError], so a set that holds NaN sorts only when it
    holds nothing else. *)
Definition sorted_text (s : list (option string))
  : Exception + list (option string) :=
  if existsb isna s && (1 <? List.length s)%nat then inl TypeError
  else inr (argsort text_leb s).

(** The rows handed to the chart code at line 122, or the exception. *)
Definition plot_micro_age_sex (df_micro : list Observation) (y : Z)
    (locations : list string) : Exception + list Observation :=
  let sub :=
    filter (fun r => year_is y (year r) && isin (location r) locations)
           df_micro in
  let sub := filter (fun r => notna (value r)) sub in
  let sexes := text_set (map sex sub) in
  if negb (existsb (text_eqb (Some "Male")) sexes
           && existsb (text_eqb (Some "Female")) sexes)
  then
    match sorted_text sexes with
    | inl e => inl e
    | inr shown => inl (MissingSexSplitError shown)
    end
  else inr (filter (fun r => isin (sex r) ["Male"; "Female"]) sub).

(** ** Prioritization engine: [plot_actionable], lines 148-154 and 176-178 *)

Definition eps : Q := 5 # 100.

(** The ratio of line 177 on two numbers. *)
Definition priority (dep_prev psy : Q) : Q := dep_prev / (psy + eps).

(** The same on cells: NaN in, NaN out. *)
Definition priority_cell (dep_prev psy : option Q) : option Q :=
  match dep_prev, psy with
  | Some n, Some c => Some (priority n c)
  | _, _ => None
  end.

(** The ratio of line 177 on binary64; the literal is the binary64 value
    of [0.05]. *)
Definition priority_binary64 (dep_prev psy : float) : float :=
  PrimFloat.div dep_prev (PrimFloat.add psy 0x1.999999999999ap-5%float).

Definition need_y (need_all : list Observation) (y : Z) : list Observation :=
  filter (fun r => notna (value r))
         (filter (fun r => year_is y (year r)) need_all).

Definition psy_y (psy : list CapacityRecord) (y : Z) : list CapacityRecord :=
  filter (fun c => notna (psy_per100k c))
         (filter (fun c => year_is y (psy_year c)) psy).

(** Key equality of [merge(on=["location", "year"])]; pandas matches a
    missing location with a missing location. *)
Definition same_key (r : Observation) (c : CapacityRecord) : bool :=
  text_eqb (location r) (psy_location c) && year_eqb (year r) (psy_year c).

(** [left.merge(right, on=["location", "year"], how="inner")]: the pairs
    with equal keys, in the order of the left rows. *)
Definition merge (left : list Observation) (right : list CapacityRecord)
  : list (Observation * CapacityRecord) :=
  flat_map (fun r => map (pair r) (filter (same_key r) right)) left.

(** [merged] as it stands after line 154. *)
Definition merged_pairs (need_all : list Observation)
    (psy : list CapacityRecord) (y : Z) : list (Observation * CapacityRecord) :=
  let merged := merge (need_y need_all y) (psy_y psy y) in
  let merged :=
    filter (fun p => notna (value (fst p)) && notna (psy_per100k (snd p)))
           merged in
  filter (fun p => gt0 (psy_per100k (snd p))) merged.

Definition attach_priority (p : Observation * CapacityRecord) : JoinedRecord :=
  mkJoinedRecord (fst p) (snd p)
    (priority_cell (value (fst p)) (psy_per100k (snd p))).

(** The frame [merged] of [plot_actionable] as it stands after line 177,
    with the derived column; the function returns it once the two charts
    are drawn.  The drawing itself, which can fail ([barh] of line 180
    refuses a label that is not a string), is not part of this value. *)
Definition plot_actionable (need_all : list Observation)
    (psy : list CapacityRecord) (y : Z) : list JoinedRecord :=
  map attach_priority (merged_pairs need_all psy y).

(** Line 177 as binary64 computes it, the rounding left open: the literal
    and each operation give the exact result rounded, [round] standing for
    the rounding of the format (results that overflow set aside). *)
Definition priority_rounded (round : Q -> Q) (dep_prev psy : Q) : Q :=
  round (dep_prev / round (psy + round eps)).

(** The comparison the sort runs on the keys; only keys without NaN reach
    it, and NaN is put below every number to keep the comparison total. *)
Definition priority_leb (a b : JoinedRecord) : bool :=
  match priority_index a, priority_index b with
  | None, _ => true
  | Some _, None => false
  | Some x, Some z => Qle_bool x z
  end.

(** [top] of line 178, the rows of the bar chart. *)
Definition top (quick : Quicksort) (need_all : list Observation)
    (psy : list CapacityRecord) (y : Z) : list JoinedRecord :=
  head 15 (sort_values_desc quick priority_leb
             (fun r => isna (priority_index r))
             (plot_actionable need_all psy y)).

(** ** The ranking of the specification

    The order the specification asks of the shortlist: priority index
    descending, ties by location ascending. *)
Definition ranked_before (a b : JoinedRecord) : Prop :=
  match priority_index a, priority_index b with
  | Some x, Some z =>
      z < x \/
      (x == z /\
       match location (need a), location (need b) with
       | Some s, Some t => String.leb s t = true
       | _, _ => False
       end)
  | _, _ => False
  end.

(** The order the code gives it: priority index descending. *)
Definition priority_ge (a b : JoinedRecord) : Prop :=
  match priority_index a, priority_index b with
  | Some x, Some z => z <= x
  | _, _ => False
  end.

(** ** Sample data *)

Definition obs (loc sx m : string) (yr : Z) (v : Q) : Observation :=
  mkObservation (Some loc) (Some sx) (Some "All ages")
    (Some "Depressive disorders") (Some "Prevalence") (Some m)
    (Some v) None None (Some (whole yr)).

Definition cap (loc : string) (yr : Z) (v : Q) : CapacityRecord :=
  mkCapacityRecord (Some loc) (Some (whole yr)) (Some v).

Definition sample_need : list Observation :=
  [ obs "Zambia" "Both" "Percent" 2020 10;
    obs "Angola" "Both" "Percent" 2020 10;
    obs "Chad" "Both" "Percent" 2020 4;
    obs "Peru" "Both" "Percent" 2019 5 ].

Definition sample_psy : list CapacityRecord :=
  [ cap "Zambia" 2020 1;
    cap "Angola" 2020 1;
    cap "Chad" 2020 0;
    cap "Fiji" 2020 2;
    cap "Peru" 2019 3 ].

Definition sample_fractions : IhmeFrame :=
  mkIhmeFrame true false false
    [ obs "Singapore" "Both" "Percent" 2019 (4 # 100);
      obs "Singapore" "Both" "Percent" 2020 (5 # 100) ].

Definition sample_mixed : IhmeFrame :=
  mkIhmeFrame true false false
    [ obs "Singapore" "Both" "Percent" 2020 (5 # 100);
      obs "Singapore" "Both" "Number" 2020 (1 # 2) ].

(** A micro export in which one row has no sex label. *)
Definition sample_micro_unset : list Observation :=
  [ mkObservation (Some "Singapore") None (Some "20-24 years")
      (Some "Depressive disorders") (Some "Prevalence") (Some "Percent")
      (Some 5) None None (Some (whole 2020));
    obs "Singapore" "Both" "Percent" 2020 5 ].

Definition sample_micro : list Observation :=
  [ obs "Singapore" "Male" "Percent" 2020 4;
    obs "Singapore" "Female" "Percent" 2020 6;
    obs "Singapore" "Both" "Percent" 2020 5 ].

(** Need years 2010 and 2015 against capacity years 2018 and 2019. *)
Definition sample_need_apart : list Observation :=
  [ obs "Chad" "Both" "Percent" 2015 4;
    obs "Chad" "Both" "Percent" 2010 3 ].

Definition sample_psy_apart : list CapacityRecord :=
  [ cap "Chad" 2019 1; cap "Chad" 2018 1 ].

(** Two tied pairs in one year: Zambia with Angola, Chad with Peru. *)
Definition sample_need_ties : list Observation :=
  [ obs "Zambia" "Both" "Percent" 2020 10;
    obs "Angola" "Both" "Percent" 2020 10;
    obs "Chad" "Both" "Percent" 2020 4;
    obs "Peru" "Both" "Percent" 2020 4 ].

Definition sample_psy_ties : list CapacityRecord :=
  [ cap "Zambia" 2020 1; cap "Angola" 2020 1;
    cap "Chad" 2020 1; cap "Peru" 2020 1 ].

(** Two years with one location each, both need years. *)
Definition sample_need_two_years : list Observation :=
  [ obs "Chad" "Both" "Percent" 2010 4;
    obs "Chad" "Both" "Percent" 2011 4 ].

Definition sample_psy_two_years : list CapacityRecord :=
  [ cap "Chad" 2010 1; cap "Chad" 2011 1 ].

(** A capacity file whose only year is 2020.5. *)
Definition sample_psy_half_year : list CapacityRecord :=
  [ mkCapacityRecord (Some "Chad") (Some (Finite (Q2Qc (4041 # 2))))
      (Some 1) ].

Definition sample_need_2020 : list Observation :=
  [ obs "Chad" "Both" "Percent" 2020 4 ].

(** The year 2019 is in both files; the capacity file has two locations
    in the year 2020.5 beside it. *)
Definition sample_need_mixed : list Observation :=
  [ obs "Chad" "Both" "Percent" 2020 4;
    obs "Chad" "Both" "Percent" 2019 4 ].

Definition sample_psy_mixed : list CapacityRecord :=
  [ mkCapacityRecord (Some "Chad") (Some (Finite (Q2Qc (4041 # 2))))
      (Some 1);
    mkCapacityRecord (Some "Peru") (Some (Finite (Q2Qc (4041 # 2))))
      (Some 1);
    cap "Chad" 2019 1 ].

(** A capacity file in which the year 2005 has no capacity value. *)
Definition sample_need_2005 : list Observation :=
  [ obs "Chad" "Both" "Percent" 2005 4 ].

Definition sample_psy_2005_missing : list CapacityRecord :=
  [ mkCapacityRecord (Some "Chad") (Some (whole 2005)) None;
    cap "Chad" 2020 1; cap "Peru" 2021 1 ].

(** A capacity file with an infinite year beside the year 2020. *)
Definition sample_psy_infinite : list CapacityRecord :=
  [ cap "Chad" 2020 1;
    mkCapacityRecord (Some "Peru") (Some (Infinite false)) (Some 1) ].

(** ** Age labels: [age_sort_key], lines 66-74

    The functions below are those of Python on ASCII text: [isdigit] is
    then the test for '0' to '9', [strip] removes the ASCII whitespace,
    [lower] touches 'A' to 'Z' only; and [float] is exact on a run of
    digits that spells a number below 2^53. *)

(** A text made of ASCII characters only. *)
Fixpoint ascii_only (s : string) : bool :=
  match s with
  | EmptyString => true
  | String c t => (nat_of_ascii c <? 128)%nat && ascii_only t
  end.

Definition is_digit (c : ascii) : bool :=
  let n := nat_of_ascii c in (48 <=? n)%nat && (n <=? 57)%nat.

Definition is_space (c : ascii) : bool :=
  let n := nat_of_ascii c in
  ((9 <=? n)%nat && (n <=? 13)%nat) || ((28 <=? n)%nat && (n <=? 32)%nat).

Fixpoint lstrip (s : string) : string :=
  match s with
  | EmptyString => EmptyString
  | String c t => if is_space c then lstrip t else s
  end.

Fixpoint rstrip (s : string) : string :=
  match s with
  | EmptyString => EmptyString
  | String c t =>
      match rstrip t with
      | EmptyString => if is_space c then EmptyString else String c EmptyString
      | t' => String c t'
      end
  end.

(** [str.strip()]. *)
Definition strip (s : string) : string := rstrip (lstrip s).

(** The loop of lines 69-73, [digits] being the text gathered so far: a
    digit is appended, and any other character ends the loop once a digit
    has been seen. *)
Fixpoint scan_digits (digits s : string) : string :=
  match s with
  | EmptyString => digits
  | String ch t =>
      if is_digit ch then scan_digits (digits ++ String ch EmptyString) t
      else match digits with
           | EmptyString => scan_digits digits t
           | _ => digits
           end
  end.

(** The number a text of decimal digits spells, read left to right. *)
Fixpoint decimal_from (acc : N) (digits : string) : N :=
  match digits with
  | EmptyString => acc
  | String ch t => decimal_from (10 * acc + (N_of_ascii ch - 48)) t
  end.

Definition decimal (digits : string) : N := decimal_from 0 digits.

(** [float(digits) if digits else 999.0], on [str(age_str).strip().lower()]. *)
Definition age_sort_key (age_str : option string) : Q :=
  let s := lower_string (strip (astype_str age_str)) in
  match scan_digits EmptyString s with
  | EmptyString => 999
  | digits => inject_Z (Z.of_N (decimal digits))
  end.

(** A text without digit, and a text of digits only. *)
Fixpoint no_digit (s : string) : bool :=
  match s with
  | EmptyString => true
  | String c t => negb (is_digit c) && no_digit t
  end.

Fixpoint all_digits (s : string) : bool :=
  match s with
  | EmptyString => true
  | String c t => is_digit c && all_digits t
  end.

(** A text that does not go on with a digit. *)
Definition no_digit_ahead (s : string) : bool :=
  match s with
  | EmptyString => true
  | String c _ => negb (is_digit c)
  end.

(** ** Macro chart: [plot_macro_trend], lines 96-101 *)

(** Ascending order on a key column, NaN last. *)
Definition text_asc (a b : option string) : bool :=
  match a, b with
  | Some s, Some t => String.leb s t
  | _, None => true
  | None, Some _ => false
  end.

Definition year_asc (a b : option Year) : bool :=
  match a, b with
  | Some x, Some y => year_leb x y
  | _, None => true
  | None, Some _ => false
  end.

(** The order of [sort_values(["location", "year"])]: location first,
    year between rows of one location.  A sort on several columns is
    stable. *)
Definition macro_leb (a b : Observation) : bool :=
  if text_eqb (location a) (location b) then year_asc (year a) (year b)
  else text_asc (location a) (location b).

(** [sub] of lines 96-97. *)
Definition macro_sub (df_macro : list Observation) (locations : list string)
  : list Observation :=
  argsort macro_leb
    (filter (fun r => notna (year r) && notna (value r))
       (filter (fun r => isin (location r) locations) df_macro)).

(** [groupby("location")]: one group per non-missing location, keys
    ascending, each with its rows in frame order. *)
Definition groupby_location (sub : list Observation)
  : list (string * list Observation) :=
  map (fun loc =>
         (loc, filter (fun r => text_eqb (location r) (Some loc)) sub))
      (argsort String.leb (nodup string_dec (dropna (map location sub)))).

(** The lines of the macro chart, in drawing order: the label and the
    rows whose [year] and [value] columns are plotted. *)
Definition plot_macro_trend (df_macro : list Observation)
    (locations : list string) : list (string * list Observation) :=
  groupby_location (macro_sub df_macro locations).

Definition sample_macro : list Observation :=
  [ obs "Japan" "Both" "Percent" 2020 3;
    obs "India" "Both" "Percent" 2019 4;
    obs "Japan" "Both" "Percent" 2019 2;
    obs "Chad" "Both" "Percent" 2019 5;
    obs "India" "Both" "Percent" 2018 4 ].

(** ** Thresholds of the scatter chart: [plot_actionable], lines 155-158 *)

(** [Series.quantile(q)] with its default linear interpolation: NaN is
    skipped; on [n] sorted values the position is [q * (n - 1)], and the
    result lies between the value at the floor of the position and the
    next one (the same one at the upper end), in proportion of the
    fractional part.  Without values the result is NaN. *)
Definition quantile (q : Q) (col : list (option Q)) : option Q :=
  let v := argsort Qle_bool (dropna col) in
  match v with
  | [] => None
  | v0 :: _ =>
      let pos := q * inject_Z (Z.of_nat (List.length v) - 1) in
      let lo := Qfloor pos in
      let a := nth (Z.to_nat lo) v v0 in
      let b := nth (Z.to_nat (lo + 1)) v a in
      Some (a + (b - a) * (pos - inject_Z lo))
  end.

(** The two dashed lines of the scatter chart. *)
Definition x_thr (need_all : list Observation) (psy : list CapacityRecord)
    (y : Z) : option Q :=
  quantile (1 # 4)
    (map (fun p => psy_per100k (snd p)) (merged_pairs need_all psy y)).

Definition y_thr (need_all : list Observation) (psy : list CapacityRecord)
    (y : Z) : option Q :=
  quantile (3 # 4)
    (map (fun p => value (fst p)) (merged_pairs need_all psy y)).

(** ** Micro chart: [plot_micro_age_sex], lines 122-133 *)

(** What the rest of [plot_micro_age_sex] can raise: what the guard raises,
    and the [ValueError] of [pd.Categorical] on a missing category. *)
Inductive ChartError :=
| Raised (e : Exception)
| CategoriesCannotBeNull.

(** [Series.unique()]: the distinct labels in order of first appearance. *)
Fixpoint unique (col : list (option string)) : list (option string) :=
  match col with
  | [] => []
  | x :: t => x :: filter (fun z => negb (text_eqb x z)) (unique t)
  end.

Definition age_leb (a b : option string) : bool :=
  Qle_bool (age_sort_key a) (age_sort_key b).

(** [ages] of line 123; Python's [sorted] is stable. *)
Definition age_categories (sub : list Observation) : list (option string) :=
  argsort age_leb (unique (map age sub)).

(** The code of a label in the ordered Categorical of line 124: its
    position among the categories. *)
Fixpoint category_code (cats : list (option string)) (x : option string)
  : nat :=
  match cats with
  | [] => 0
  | c :: t => if text_eqb x c then 0 else S (category_code t x)
  end.

(** The order of [sort_values(["location", "sex", "age"])]. *)
Definition micro_leb (cats : list (option string)) (a b : Observation)
  : bool :=
  if text_eqb (location a) (location b) then
    if text_eqb (sex a) (sex b) then
      (category_code cats (age a) <=? category_code cats (age b))%nat
    else text_asc (sex a) (sex b)
  else text_asc (location a) (location b).

(** Lines 122-133 on the rows the guard lets through: one chart per
    requested location, in the order requested, each with the series of
    "Female" and of "Male", whose [age] and [value] columns are plotted. *)
Definition micro_axes (kept : list Observation) (locations : list string)
  : ChartError + list (string * list (string * list Observation)) :=
  let ages := age_categories kept in
  if existsb isna ages then inl CategoriesCannotBeNull
  else
    let sub := argsort (micro_leb ages) kept in
    inr (map (fun loc =>
                let g :=
                  filter (fun r => text_eqb (location r) (Some loc)) sub in
                (loc,
                 map (fun sx =>
                        (sx, filter (fun r => text_eqb (sex r) (Some sx)) g))
                     ["Female"; "Male"]))
             locations).

(** [plot_micro_age_sex] as a whole. *)
Definition micro_chart (df_micro : list Observation) (y : Z)
    (locations : list string)
  : ChartError + list (string * list (string * list Observation)) :=
  match plot_micro_age_sex df_micro y locations with
  | inl e => inl (Raised e)
  | inr kept => micro_axes kept locations
  end.

Definition micro_row (sx age_band : string) (v : Q) : Observation :=
  mkObservation (Some "Singapore") (Some sx) (Some age_band)
    (Some "Depressive disorders") (Some "Prevalence") (Some "Percent")
    (Some v) None None (Some (whole 2020)).

Definition sample_micro_ages : list Observation :=
  [ micro_row "Male" "80+ years" 3;
    micro_row "Female" "15-19 years" 6;
    micro_row "Male" "5-9 years" 1;
    micro_row "Female" "5-9 years" 2;
    micro_row "Male" "15-19 years" 4 ].


(** * Properties *)

(** ** Lists *)

Lemma StronglySorted_app {A : Type} (R : A -> A -> Prop) (l1 l2 : list A) :
  StronglySorted R l1 -> StronglySorted R l2 ->
  (forall a b, In a l1 -> In b l2 -> R a b) ->
  StronglySorted R (l1 ++ l2).
Proof.
  induction l1 as [|x l1 IH]; simpl; intros H1 H2 H12; [assumption|].
  inversion H1 as [|? ? Hs Hf]; subst.
  constructor.
  - apply IH; auto.
  - apply Forall_app; split; [assumption|].
    apply Forall_forall; intros b Hb; apply H12; auto.
Qed.

Lemma StronglySorted_rev {A : Type} (R : A -> A -> Prop) (l : list A) :
  StronglySorted R l -> StronglySorted (fun a b => R b a) (rev l).
Proof.
  induction 1 as [|x l Hs IH Hf]; simpl; [constructor|].
  apply StronglySorted_app; [assumption|repeat constructor|].
  intros a b Ha [<-|[]].
  apply in_rev in Ha.
  now apply (proj1 (Forall_forall _ _) Hf).
Qed.

Lemma StronglySorted_weaken {A : Type} (R S : A -> A -> Prop) (l : list A) :
  (forall a b, R a b -> S a b) -> StronglySorted R l -> StronglySorted S l.
Proof.
  intros HRS; induction 1 as [|x l Hs IH Hf]; constructor; [assumption|].
  eapply Forall_impl; [|exact Hf]; auto.
Qed.

Lemma filter_none {A : Type} (f : A -> bool) (l : list A) :
  (forall x, f x = false) -> filter f l = [].
Proof.
  intros H; induction l as [|x l IH]; simpl; [reflexivity|].
  now rewrite H.
Qed.

(** The first element that a filter keeps: nothing before it passes, and
    everything that passes is it or comes after it. *)
Lemma filter_first {A : Type} (p : A -> bool) (l : list A) (x : A)
    (rest : list A) :
  filter p l = x :: rest ->
  exists l1 l2, l = l1 ++ x :: l2 /\ p x = true /\
                Forall (fun a => p a = false) l1.
Proof.
  induction l as [|a l IH]; simpl; [discriminate|].
  destruct (p a) eqn:Hpa.
  - intros [= -> _]. exists [], l. auto.
  - intros H. destruct (IH H) as (l1 & l2 & -> & Hx & Hl1).
    exists (a :: l1), l2. auto.
Qed.

Lemma filter_id_on {A : Type} (f : A -> bool) (l : list A) :
  (forall x, In x l -> f x = true) -> filter f l = l.
Proof.
  induction l as [|x l IH]; simpl; intros H; [reflexivity|].
  rewrite (H x) by auto. f_equal. apply IH. auto.
Qed.

Lemma StronglySorted_app_inv {A : Type} (R : A -> A -> Prop)
    (l1 l2 : list A) :
  StronglySorted R (l1 ++ l2) ->
  forall a b, In a l1 -> In b l2 -> R a b.
Proof.
  induction l1 as [|x l1 IH]; simpl; intros H a b Ha Hb; [destruct Ha|].
  inversion H as [|? ? Hs Hf]; subst.
  destruct Ha as [<-|Ha].
  - rewrite Forall_forall in Hf. apply Hf, in_or_app. now right.
  - now apply IH.
Qed.

Lemma StronglySorted_app_l {A : Type} (R : A -> A -> Prop) (l1 l2 : list A) :
  StronglySorted R (l1 ++ l2) -> StronglySorted R l1.
Proof.
  induction l1 as [|x l1 IH]; simpl; intros H; [constructor|].
  inversion H as [|? ? Hs Hf]; subst.
  constructor; [auto|].
  apply Forall_app in Hf. tauto.
Qed.

(** ** The stable sort *)

Section ArgsortFacts.
Context {A : Type} (leb : A -> A -> bool).
Hypothesis leb_total : forall a b, leb a b = true \/ leb b a = true.
Hypothesis leb_trans :
  forall a b c, leb a b = true -> leb b c = true -> leb a c = true.

Lemma insert_perm (x : A) (l : list A) : Permutation (x :: l) (insert leb x l).
Proof.
  induction l as [|y l IH]; simpl; [reflexivity|].
  destruct (leb x y); [reflexivity|].
  etransitivity; [apply perm_swap|]. now constructor.
Qed.

Lemma argsort_perm (l : list A) : Permutation l (argsort leb l).
Proof.
  induction l as [|x l IH]; simpl; [constructor|].
  etransitivity; [|apply insert_perm]. now constructor.
Qed.

Lemma argsort_In (l : list A) (x : A) : In x (argsort leb l) <-> In x l.
Proof.
  split; apply Permutation_in;
    [symmetry|]; apply argsort_perm.
Qed.

Lemma insert_stably (before : A -> A -> Prop) (x : A) (l : list A) :
  Forall (before x) l ->
  StronglySorted (stably leb before) l ->
  StronglySorted (stably leb before) (insert leb x l).
Proof.
  intros Hx Hs; induction Hs as [|y l Hs IH Hf]; simpl.
  - repeat constructor.
  - inversion Hx as [|? ? Hxy Hxl]; subst.
    destruct (leb x y) eqn:Hle.
    + constructor; [now constructor|].
      constructor; [split; auto|].
      apply Forall_forall; intros z Hz.
      split; [|intros _; exact (proj1 (Forall_forall _ _) Hxl z Hz)].
      apply leb_trans with y; [assumption|].
      exact (proj1 (proj1 (Forall_forall _ _) Hf z Hz)).
    + constructor; [auto|].
      apply Forall_forall; intros z Hz.
      apply (Permutation_in _ (Permutation_sym (insert_perm x l))) in Hz.
      destruct Hz as [<-|Hz].
      * split; [|congruence].
        destruct (leb_total x y); congruence.
      * exact (proj1 (Forall_forall _ _) Hf z Hz).
Qed.

Lemma argsort_stably (before : A -> A -> Prop) (l : list A) :
  StronglySorted before l -> StronglySorted (stably leb before) (argsort leb l).
Proof.
  induction 1 as [|x l Hs IH Hf]; simpl; [constructor|].
  apply insert_stably; [|assumption].
  apply Forall_forall; intros z Hz.
  apply (proj1 (argsort_In l z)) in Hz.
  exact (proj1 (Forall_forall _ _) Hf z Hz).
Qed.

Lemma argsort_sorted (l : list A) :
  StronglySorted (fun a b => leb a b = true) (argsort leb l).
Proof.
  induction l as [|x l IH]; simpl; [constructor|].
  apply (StronglySorted_weaken (stably leb (fun _ _ => True)));
    [intros a b [H _]; exact H|].
  apply insert_stably.
  - apply Forall_forall; auto.
  - apply (StronglySorted_weaken (fun a b => leb a b = true));
      [intros a b H; split; auto | exact IH].
Qed.

End ArgsortFacts.

(** ** The sort of [sort_values] *)

Lemma stable_sort_sorts : sorts stable_sort.
Proof.
  intros A leb l Htot Htrans. split.
  - apply argsort_perm.
  - now apply argsort_sorted.
Qed.

Lemma reversing_sort_sorts : sorts reversing_sort.
Proof.
  intros A leb l Htot Htrans. unfold reversing_sort. split.
  - etransitivity; [apply Permutation_rev|apply argsort_perm].
  - now apply argsort_sorted.
Qed.

Section QuicksortFacts.
Context (quick : Quicksort) (Hquick : sorts quick).
Context {A : Type} (leb : A -> A -> bool).
Hypothesis leb_total : forall a b, leb a b = true \/ leb b a = true.
Hypothesis leb_trans :
  forall a b c, leb a b = true -> leb b c = true -> leb a c = true.

(** The descending sort on keys without NaN. *)
Lemma sort_values_desc_nonan (key_isna : A -> bool) (l : list A) :
  (forall r, In r l -> key_isna r = false) ->
  sort_values_desc quick leb key_isna l = rev (quick A leb (rev l)).
Proof.
  intros Hna. unfold sort_values_desc.
  rewrite (filter_id_on (fun r => negb (key_isna r)))
    by (intros r Hr; now rewrite (Hna r Hr)).
  replace (filter key_isna l) with (@nil A); [apply app_nil_r|].
  symmetry. induction l as [|r l IH]; [reflexivity|].
  simpl. rewrite (Hna r) by now left.
  apply IH. intros r' Hr'. apply Hna. now right.
Qed.

Lemma desc_perm (l : list A) : Permutation l (rev (quick A leb (rev l))).
Proof.
  rewrite <- Permutation_rev.
  etransitivity; [apply Permutation_rev|].
  apply (Hquick A leb (rev l) leb_total leb_trans).
Qed.

Lemma desc_sorted (l : list A) :
  StronglySorted (fun a b => leb b a = true) (rev (quick A leb (rev l))).
Proof.
  apply StronglySorted_rev.
  apply (Hquick A leb (rev l) leb_total leb_trans).
Qed.
End QuicksortFacts.

(** ** Cells *)

Lemma notna_Some {A : Type} (c : option A) :
  notna c = true <-> exists v, c = Some v.
Proof.
  destruct c; simpl; split; eauto; try discriminate.
  intros [v Hv]; discriminate.
Qed.

Lemma year_eqb_eq (a b : option Year) :
  year_eqb a b = true <-> exists q, a = Some q /\ b = Some q.
Proof.
  destruct a as [x|], b as [y|]; simpl;
    try (split; [discriminate|intros (q & H1 & H2); discriminate]).
  destruct (Year_eq_dec x y) as [->|Hne]; split; eauto.
  - discriminate.
  - intros (q & [= ->] & [= ->]). contradiction.
Qed.

Lemma year_is_eq (y : Z) (c : option Year) :
  year_is y c = true <-> c = Some (whole y).
Proof.
  unfold year_is. rewrite year_eqb_eq. split.
  - intros (q & -> & [= ->]). reflexivity.
  - intros ->. eauto.
Qed.

Lemma text_eqb_eq (a b : option string) : text_eqb a b = true <-> a = b.
Proof.
  unfold text_eqb. destruct (text_eq_dec a b); split; auto; discriminate.
Qed.

Lemma gt0_pos (c : option Q) : gt0 c = true <-> exists q, c = Some q /\ 0 < q.
Proof.
  destruct c as [q|]; simpl.
  - rewrite negb_true_iff. split.
    + intros H. exists q. split; [reflexivity|].
      apply Qnot_le_lt. intros Hle.
      apply Qle_bool_iff in Hle. congruence.
    + intros (q' & [= <-] & Hq).
      destruct (Qle_bool q 0) eqn:E; [|reflexivity].
      apply Qle_bool_iff in E. exfalso. exact (Qlt_not_le _ _ Hq E).
  - split; [discriminate|]. intros (q & H & _); discriminate.
Qed.

Lemma in_dropna {A : Type} (col : list (option A)) (v : A) :
  In v (dropna col) <-> In (Some v) col.
Proof.
  induction col as [|[w|] col IH]; simpl.
  - tauto.
  - rewrite IH. split; intros [H|H]; auto; left; congruence.
  - rewrite IH. split; [auto|]. intros [H|H]; [discriminate|auto].
Qed.

Lemma Qle_bool_total (a b : Q) : Qle_bool a b = true \/ Qle_bool b a = true.
Proof.
  rewrite !Qle_bool_iff.
  destruct (Qlt_le_dec a b) as [H|H]; [left; now apply Qlt_le_weak|auto].
Qed.

Lemma Qle_bool_trans (a b c : Q) :
  Qle_bool a b = true -> Qle_bool b c = true -> Qle_bool a c = true.
Proof. rewrite !Qle_bool_iff. apply Qle_trans. Qed.

Lemma year_leb_le (a b : Year) : year_leb a b = true <-> year_le a b.
Proof.
  destruct a as [x|[|]], b as [y|[|]]; simpl;
    try tauto; try (split; [discriminate|contradiction]).
  apply Qle_bool_iff.
Qed.

Lemma year_leb_total (a b : Year) : year_leb a b = true \/ year_leb b a = true.
Proof.
  destruct a as [x|[|]], b as [y|[|]]; simpl; auto. apply Qle_bool_total.
Qed.

Lemma year_leb_trans (a b c : Year) :
  year_leb a b = true -> year_leb b c = true -> year_leb a c = true.
Proof.
  destruct a as [x|[|]], b as [y|[|]], c as [z|[|]]; simpl; auto;
    try discriminate.
  apply Qle_bool_trans.
Qed.

(** ** The join *)

Lemma in_merge (left : list Observation) (right : list CapacityRecord)
    (p : Observation * CapacityRecord) :
  In p (merge left right) <->
  In (fst p) left /\ In (snd p) right /\
  location (fst p) = psy_location (snd p) /\
  year_eqb (year (fst p)) (psy_year (snd p)) = true.
Proof.
  unfold merge. rewrite in_flat_map. split.
  - intros (r & Hr & Hp).
    apply in_map_iff in Hp. destruct Hp as (c & <- & Hc).
    apply filter_In in Hc. destruct Hc as [Hc Hk].
    unfold same_key in Hk. apply andb_true_iff in Hk.
    simpl. rewrite <- text_eqb_eq. tauto.
  - destruct p as [r c]; simpl. intros (Hr & Hc & Hl & Hy).
    exists r. split; [assumption|].
    apply in_map. apply filter_In. split; [assumption|].
    unfold same_key. apply andb_true_iff. now rewrite text_eqb_eq.
Qed.

Lemma in_need_y (need_all : list Observation) (y : Z) (r : Observation) :
  In r (need_y need_all y) <->
  In r need_all /\ year r = Some (whole y) /\ exists n, value r = Some n.
Proof.
  unfold need_y. rewrite !filter_In, year_is_eq, notna_Some. tauto.
Qed.

Lemma in_psy_y (psy : list CapacityRecord) (y : Z) (c : CapacityRecord) :
  In c (psy_y psy y) <->
  In c psy /\ psy_year c = Some (whole y) /\
  exists q, psy_per100k c = Some q.
Proof.
  unfold psy_y. rewrite !filter_In, year_is_eq, notna_Some. tauto.
Qed.

(** The rows of [merged]: the pairs of a need row and a capacity row of
    the chosen year with the same location, a need value and a positive
    capacity value. *)
Lemma in_merged_pairs (need_all : list Observation)
    (psy : list CapacityRecord) (y : Z) (p : Observation * CapacityRecord) :
  In p (merged_pairs need_all psy y) <->
  In (fst p) need_all /\ In (snd p) psy /\
  year (fst p) = Some (whole y) /\ psy_year (snd p) = Some (whole y) /\
  location (fst p) = psy_location (snd p) /\
  (exists n, value (fst p) = Some n) /\
  (exists c, psy_per100k (snd p) = Some c /\ 0 < c).
Proof.
  unfold merged_pairs. rewrite !filter_In, in_merge, in_need_y, in_psy_y.
  rewrite gt0_pos, andb_true_iff, !notna_Some.
  split.
  - tauto.
  - intros (Hn & Hc & Hy & Hcy & Hl & Hv & Hpos).
    assert (Hq : exists q, psy_per100k (snd p) = Some q)
      by (destruct Hpos as (c & Hc' & _); eauto).
    repeat split; auto.
    apply year_eqb_eq. eauto.
Qed.

Lemma in_plot_actionable (need_all : list Observation)
    (psy : list CapacityRecord) (y : Z) (r : JoinedRecord) :
  In r (plot_actionable need_all psy y) <->
  In (need r, capacity r) (merged_pairs need_all psy y) /\
  priority_index r =
    priority_cell (value (need r)) (psy_per100k (capacity r)).
Proof.
  unfold plot_actionable. rewrite in_map_iff. split.
  - intros ([n c] & <- & Hp). simpl. auto.
  - destruct r as [n c pi]; simpl. intros [Hp ->].
    exists (n, c). auto.
Qed.

(** ** The priority index *)

Lemma eps_pos : 0 < eps.
Proof. reflexivity. Qed.

Lemma denominator_pos (c : Q) : 0 < c -> 0 < c + eps.
Proof.
  intros Hc. apply Qlt_trans with c; [assumption|].
  rewrite <- (Qplus_0_r c) at 1.
  apply Qplus_lt_r. exact eps_pos.
Qed.

Lemma joined_priority (need_all : list Observation)
    (psy : list CapacityRecord) (y : Z) (r : JoinedRecord) :
  In r (plot_actionable need_all psy y) ->
  exists n c,
    value (need r) = Some n /\ psy_per100k (capacity r) = Some c /\
    priority_index r = Some (priority n c).
Proof.
  intros Hr.
  apply in_plot_actionable in Hr. destruct Hr as [Hp Hpi].
  apply in_merged_pairs in Hp. simpl in Hp.
  destruct Hp as (_ & _ & _ & _ & _ & [n Hn] & (c & Hc & _)).
  exists n, c. rewrite Hpi, Hn, Hc. auto.
Qed.

(** C4: every record of the joined set carries
    [priority_index = need / (capacity + 0.05)], the constant being fixed;
    need 20 with capacity 0 gives 400 and need 20 with capacity 10 gives
    20 / 10.05, in exact arithmetic and on binary64 alike (the last
    literal is the binary64 value of [10.05]). *)
Theorem priority_index_formula :
  (forall need_all psy y r,
      In r (plot_actionable need_all psy y) ->
      exists n c,
        value (need r) = Some n /\ psy_per100k (capacity r) = Some c /\
        priority_index r = Some (n / (c + (5 # 100))))
  /\ priority 20 0 == 400
  /\ priority 20 10 == 20 / (1005 # 100)
  /\ priority_binary64 20 0 = 400%float
  /\ priority_binary64 20 10 = PrimFloat.div 20 0x1.419999999999ap+3%float.
Proof.
  split; [|repeat split; reflexivity].
  intros need_all psy y r Hr. exact (joined_priority _ _ _ _ Hr).
Qed.

Lemma priority_index_formula_witness :
  exists r n c,
    In r (plot_actionable sample_need sample_psy 2020) /\
    value (need r) = Some n /\ psy_per100k (capacity r) = Some c /\
    priority_index r = Some (n / (c + (5 # 100))).
Proof.
  exists (attach_priority (obs "Zambia" "Both" "Percent" 2020 10,
                           cap "Zambia" 2020 1)).
  assert (Hin : In (attach_priority (obs "Zambia" "Both" "Percent" 2020 10,
                                     cap "Zambia" 2020 1))
                   (plot_actionable sample_need sample_psy 2020))
    by (left; reflexivity).
  destruct (proj1 priority_index_formula _ _ _ _ Hin) as (n & c & H).
  exists n, c. split; [exact Hin|exact H].
Defined.

(** On the exact ratio: for a need value above 0 it strictly decreases as
    the capacity increases over capacities above 0, and for a capacity
    above 0 it strictly increases with the need value. *)
Lemma exact_ratio_monotone (n n' c c' : Q) :
  0 < c ->
  (0 < n -> c < c' -> priority n c' < priority n c) /\
  (n < n' -> priority n c < priority n' c).
Proof.
  intros Hc. unfold priority, Qdiv. split.
  - intros Hn Hcc.
    assert (Hd : 0 < c + eps) by now apply denominator_pos.
    assert (Hd' : 0 < c' + eps)
      by (apply denominator_pos; now apply Qlt_trans with c).
    apply Qmult_lt_l; [assumption|].
    apply (proj1 (Qinv_lt_contravar _ _ Hd Hd')).
    now apply Qplus_lt_l.
  - intros Hnn.
    apply Qmult_lt_r; [|assumption].
    apply Qinv_lt_0_compat. now apply denominator_pos.
Qed.

Lemma ratio_le_capacity (n d d' : Q) :
  0 <= n -> 0 < d -> d <= d' -> n / d' <= n / d.
Proof.
  intros Hn Hd Hdd.
  assert (Hd' : 0 < d') by (apply Qlt_le_trans with d; assumption).
  apply Qle_shift_div_r; [assumption|].
  assert (Hx : 0 <= n / d).
  { apply Qle_shift_div_l; [assumption|]. now rewrite Qmult_0_l. }
  assert (Hxd : n / d * d == n) by (field; intros E; rewrite E in Hd;
                                    discriminate).
  rewrite <- Hxd at 1.
  rewrite (Qmult_comm (n / d) d), (Qmult_comm (n / d) d').
  now apply Qmult_le_compat_r.
Qed.

Lemma ratio_le_need (n n' d : Q) :
  0 < d -> n <= n' -> n / d <= n' / d.
Proof.
  intros Hd Hn. unfold Qdiv.
  apply Qmult_le_compat_r; [assumption|].
  apply Qlt_le_weak, Qinv_lt_0_compat, Hd.
Qed.

(** Without rounding, the rounded ratio is the exact one. *)
Lemma priority_rounded_exact (n c : Q) :
  priority_rounded (fun x => x) n c = priority n c.
Proof. reflexivity. Qed.

(** C7, as the code has it: the index is the rounded quotient of the
    need value by the rounded sum of the capacity value and the rounded
    constant 0.05; for a fixed need value of at least 0 it does not
    increase as the capacity value increases over capacity values greater
    than 0, and for a fixed capacity value greater than 0 it does not
    decrease as the need value increases; neither change is strict.
    [round] is the rounding of the arithmetic: results in order round in
    order, a number of the format rounds to itself, and the constant 0.05
    rounds to a number above 0. *)
Theorem priority_never_reverses (round : Q -> Q) (n n' c c' : Q) :
  (forall x y, x <= y -> round x <= round y) ->
  round (round eps) == round eps ->
  0 < round eps ->
  0 < c ->
  priority_rounded round n c = round (n / round (c + round (5 # 100))) /\
  (0 <= n -> c <= c' ->
   priority_rounded round n c' <= priority_rounded round n c) /\
  (n <= n' -> priority_rounded round n c <= priority_rounded round n' c).
Proof.
  intros Hmono Hfix Heps Hc. unfold priority_rounded.
  assert (Hden : forall x, 0 < x -> 0 < round (x + round eps)).
  { intros x Hx. rewrite <- Hfix in Heps.
    apply Qlt_le_trans with (round (round eps)); [assumption|].
    apply Hmono. rewrite <- (Qplus_0_l (round eps)) at 1.
    apply Qplus_le_l. now apply Qlt_le_weak. }
  split; [reflexivity|]. split.
  - intros Hn Hcc. apply Hmono.
    apply ratio_le_capacity; [assumption|now apply Hden|].
    apply Hmono. now apply Qplus_le_l.
  - intros Hnn. apply Hmono.
    apply ratio_le_need; [now apply Hden|assumption].
Qed.

Lemma priority_never_reverses_witness :
  priority_rounded (fun x => x) 20 10 <= priority_rounded (fun x => x) 20 5 /\
  priority_rounded (fun x => x) 10 5 <= priority_rounded (fun x => x) 20 5.
Proof.
  split.
  - apply (proj1 (proj2 (priority_never_reverses (fun x => x) 20 20 5 10
                           (fun x y H => H) (Qeq_refl _) eq_refl eq_refl)));
      discriminate.
  - apply (proj2 (proj2 (priority_never_reverses (fun x => x) 10 20 5 5
                           (fun x y H => H) (Qeq_refl _) eq_refl eq_refl)));
      discriminate.
Defined.

(** C7 as stated fails on line 177 as binary64 computes it.  With need
    value 0 the index is 0 at capacities 1 and 2, and rounding gives need
    3.5 the same index at capacities 1.5 and 1.5000000000000002: it does
    not strictly decrease.  Rounding also gives the need values 7.25 and
    7.250000000000001 the same index at capacity 1.5: it does not strictly
    increase.  Below 0 the directions turn: with need value -1 the index
    grows from capacity 1 to capacity 2, and at capacity -1 it falls from
    need 1 to need 2. *)
Lemma priority_not_strict :
  ~ (forall n c c' : float,
        PrimFloat.ltb 0 c = true -> PrimFloat.ltb c c' = true ->
        PrimFloat.ltb (priority_binary64 n c') (priority_binary64 n c)
        = true) /\
  priority_binary64 0x1.cp+1 0x1.8p+0
  = priority_binary64 0x1.cp+1 0x1.8000000000001p+0 /\
  ~ (forall n n' c : float,
        PrimFloat.ltb 0 c = true -> PrimFloat.ltb n n' = true ->
        PrimFloat.ltb (priority_binary64 n c) (priority_binary64 n' c)
        = true) /\
  PrimFloat.ltb (priority_binary64 (-1) 1) (priority_binary64 (-1) 2)
  = true /\
  PrimFloat.ltb (priority_binary64 2 (-1)) (priority_binary64 1 (-1))
  = true /\
  priority (-1) 1 < priority (-1) 2 /\
  priority 2 (-1) < priority 1 (-1).
Proof.
  split; [|split; [|split; [|split; [|split; [|split]]]]].
  - intros H. specialize (H 0%float 1%float 2%float eq_refl eq_refl).
    vm_compute in H. discriminate.
  - reflexivity.
  - intros H.
    specialize (H 0x1.dp+2%float 0x1.d000000000001p+2%float 0x1.8p+0%float
                  eq_refl eq_refl).
    vm_compute in H. discriminate.
  - reflexivity.
  - reflexivity.
  - reflexivity.
  - reflexivity.
Qed.

(** ** The unit normalizer *)

Lemma series_max_None (col : list (option Q)) :
  series_max col = None -> forall v, ~ In (Some v) col.
Proof.
  induction col as [|[w|] col IH]; simpl; intros H v.
  - tauto.
  - destruct (series_max col); discriminate.
  - intros [Hv|Hv]; [discriminate|]. exact (IH H v Hv).
Qed.

Lemma series_max_Some (col : list (option Q)) (m : Q) :
  series_max col = Some m ->
  In (Some m) col /\ forall v, In (Some v) col -> v <= m.
Proof.
  revert m; induction col as [|[w|] col IH]; simpl; intros m H.
  - discriminate.
  - destruct (series_max col) as [m'|] eqn:E.
    + destruct (IH m' eq_refl) as [Hin Hle].
      destruct (Qle_bool w m') eqn:Hw; injection H as <-.
      * apply Qle_bool_iff in Hw.
        split; [auto|]. intros v [[= <-]|Hv]; auto.
      * assert (Hlt : m' < w).
        { apply Qnot_le_lt. intros Hc. apply Qle_bool_iff in Hc. congruence. }
        split; [auto|]. intros v [[= <-]|Hv]; [apply Qle_refl|].
        apply Qle_trans with m'; [auto|]. now apply Qlt_le_weak.
    + injection H as <-. split; [auto|].
      intros v [[= <-]|Hv]; [apply Qle_refl|].
      exfalso. exact (series_max_None col E v Hv).
  - destruct (IH m H) as [Hin Hle].
    split; [auto|]. intros v [Hv|Hv]; [discriminate|auto].
Qed.

(** [max() <= 1.0] holds when there is a value and no value exceeds 1. *)
Lemma le1_series_max (col : list (option Q)) :
  le1 (series_max col) = true <->
  (exists v, In (Some v) col) /\ (forall v, In (Some v) col -> v <= 1).
Proof.
  destruct (series_max col) as [m|] eqn:E; simpl.
  - destruct (series_max_Some col m E) as [Hin Hle].
    rewrite Qle_bool_iff. split.
    + intros Hm. split; [eauto|].
      intros v Hv. apply Qle_trans with m; auto.
    + intros [_ H]. auto.
  - split; [discriminate|].
    intros [[v Hv] _]. exfalso. exact (series_max_None col E v Hv).
Qed.

Lemma is_percent_any (df : IhmeFrame) :
  is_percent df = true <->
  exists r, In r (rows df) /\
            str_contains_nocase "Percent" (astype_str (metric r)) = true.
Proof. unfold is_percent. apply existsb_exists. Qed.

Lemma Forall2_map_r {A B : Type} (P : A -> B -> Prop) (f : A -> B)
    (l : list A) :
  (forall x, P x (f x)) -> Forall2 P l (map f l).
Proof. intros H; induction l; simpl; constructor; auto. Qed.

Lemma times100_hundred_times (c : option Q) : hundred_times c (times100 c).
Proof.
  destruct c as [v|]; simpl; split; try discriminate; try reflexivity.
  now intros w [= ->].
Qed.

Lemma rescale_hundredfold (df : IhmeFrame) (r : Observation) :
  hundredfold df r (rescale df r).
Proof.
  unfold hundredfold, rescale; simpl.
  split; [apply times100_hundred_times|].
  split; intros ->; apply times100_hundred_times.
Qed.

Lemma prefix_app (p s : string) :
  prefix p s = true <-> exists b, s = (p ++ b)%string.
Proof.
  revert s; induction p as [|c p IH]; intros [|d s]; simpl.
  - split; [intros _; exists ""; reflexivity|reflexivity].
  - split; [intros _; exists (String d s); reflexivity|reflexivity].
  - split; [discriminate|]. intros [b H]. discriminate.
  - destruct (ascii_dec c d) as [->|N].
    + rewrite IH. split; intros [b H]; exists b; congruence.
    + split; [discriminate|]. intros [b H]. congruence.
Qed.

(** [substring_of] finds the text wherever it stands. *)
Lemma substring_of_app (p s : string) :
  substring_of p s = true <-> exists a b, s = (a ++ p ++ b)%string.
Proof.
  induction s as [|d s IH].
  - cbn [substring_of]. rewrite orb_false_r, prefix_app. split.
    + intros [b H]. exists "", b. exact H.
    + intros (a & b & H). destruct a as [|x a]; [eauto|discriminate].
  - cbn [substring_of]. rewrite orb_true_iff, prefix_app, IH. split.
    + intros [[b H]|(a & b & H)].
      * exists "", b. exact H.
      * exists (String d a), b. simpl. now rewrite H.
    + intros (a & b & H). destruct a as [|x a].
      * left. eauto.
      * right. injection H as _ H. eauto.
Qed.

Lemma contains_percent (label : string) :
  str_contains_nocase "Percent" label = true <-> names_percent label.
Proof. unfold str_contains_nocase, names_percent. apply substring_of_app. Qed.

(** C3: on a collection whose rows share one metric label, when the file
    has the metric column, the label contains "percent" in any letter
    case and the largest value present is at most 1, every output value,
    and upper and lower where the file has them, is 100 times the input;
    in every other case the output is the input. *)
Theorem unit_normalizer_rule (df : IhmeFrame) (label : string) :
  Forall (fun r => astype_str (metric r) = label) (rows df) ->
  let fractional :=
    has_metric df = true /\ names_percent label /\
    (exists v, In (Some v) (map value (rows df))) /\
    (forall v, In (Some v) (map value (rows df)) -> v <= 1) in
  (fractional -> Forall2 (hundredfold df) (rows df) (rows (load_ihme df))) /\
  (~ fractional -> load_ihme df = df).
Proof.
  intros Hshared fractional.
  unfold load_ihme.
  destruct (has_metric df) eqn:Hm.
  - assert (Hrule : is_percent df && le1 (series_max (map value (rows df)))
                    = true <-> fractional).
    { unfold fractional.
      rewrite andb_true_iff, le1_series_max, is_percent_any.
      rewrite Forall_forall in Hshared.
      split.
      - intros [(r & Hr & Hc) Hmax]. apply contains_percent in Hc.
        rewrite (Hshared r Hr) in Hc. tauto.
      - intros (_ & Hc & Hmax). split; [|exact Hmax].
        destruct Hmax as [[v Hv] _].
        apply in_map_iff in Hv. destruct Hv as (r & _ & Hr).
        exists r. split; [assumption|]. apply contains_percent.
        rewrite (Hshared r Hr). exact Hc. }
    destruct (is_percent df && le1 (series_max (map value (rows df)))).
    + split.
      * intros _. simpl. apply Forall2_map_r, rescale_hundredfold.
      * intros Hn. exfalso. apply Hn, Hrule. reflexivity.
    + split; [|reflexivity].
      intros Hf. apply Hrule in Hf. discriminate.
  - split; [|reflexivity].
    intros (Hf & _). discriminate.
Qed.

Lemma unit_normalizer_rule_witness :
  Forall2 (hundredfold sample_fractions)
          (rows sample_fractions) (rows (load_ihme sample_fractions)).
Proof.
  apply (unit_normalizer_rule sample_fractions "Percent").
  - repeat constructor.
  - split; [reflexivity|]. split; [exists "", ""; reflexivity|]. split.
    + exists (4 # 100). simpl. auto.
    + intros v [H|[H|[]]]; injection H as <-; vm_compute; discriminate.
Defined.

(** C10: one row whose metric label contains "Percent", in any letter
    case, is enough: when moreover the largest value over all rows is at
    most 1, the value of every row is multiplied by 100, whatever the label
    of the row. *)
Theorem rescale_triggered_by_any_row (df : IhmeFrame) (r : Observation) :
  has_metric df = true ->
  In r (rows df) ->
  names_percent (astype_str (metric r)) ->
  (exists v, In (Some v) (map value (rows df))) ->
  (forall v, In (Some v) (map value (rows df)) -> v <= 1) ->
  Forall2 (fun i o => metric o = metric i /\
                      hundred_times (value i) (value o))
          (rows df) (rows (load_ihme df)).
Proof.
  intros Hm Hr Hc Hex Hle.
  unfold load_ihme. rewrite Hm.
  assert (Hp : is_percent df = true).
  { apply is_percent_any. exists r. split; [assumption|].
    now apply contains_percent. }
  assert (Hx : le1 (series_max (map value (rows df))) = true)
    by (apply le1_series_max; auto).
  rewrite Hp, Hx. simpl.
  apply Forall2_map_r. intros x. split; [reflexivity|].
  apply times100_hundred_times.
Qed.

Lemma rescale_triggered_by_any_row_witness :
  Forall2 (fun i o => metric o = metric i /\
                      hundred_times (value i) (value o))
          (rows sample_mixed) (rows (load_ihme sample_mixed)).
Proof.
  apply (rescale_triggered_by_any_row sample_mixed
           (obs "Singapore" "Both" "Percent" 2020 (5 # 100))).
  - reflexivity.
  - simpl. auto.
  - exists "", "". reflexivity.
  - exists (5 # 100). simpl. auto.
  - intros v [H|[H|[]]]; injection H as <-; vm_compute; discriminate.
Defined.

(** ** The joined set *)

Lemma filter_map_pair {A B : Type} (g : B -> bool) (a : A) (l : list B) :
  filter (fun p => g (snd p)) (map (pair a) l) = map (pair a) (filter g l).
Proof.
  induction l as [|b l IH]; simpl; [reflexivity|].
  destruct (g b); simpl; now rewrite IH.
Qed.

Lemma filter_comm {A : Type} (f g : A -> bool) (l : list A) :
  filter f (filter g l) = filter g (filter f l).
Proof.
  induction l as [|x l IH]; simpl; [reflexivity|].
  destruct (f x) eqn:Hf, (g x) eqn:Hg; simpl;
    rewrite ?Hf, ?Hg, IH; reflexivity.
Qed.

(** Dropping capacity rows after the join or before it is the same. *)
Lemma merge_filter_right (g : CapacityRecord -> bool)
    (left : list Observation) (right : list CapacityRecord) :
  filter (fun p => g (snd p)) (merge left right) = merge left (filter g right).
Proof.
  unfold merge. induction left as [|r left IH]; simpl; [reflexivity|].
  now rewrite filter_app, IH, filter_map_pair, filter_comm.
Qed.

(** C6: a capacity record whose value is missing or not above 0 pairs with
    no record of the joined set, matching need record or not: every joined
    record has a capacity value above 0, and the joined set is the one that
    dropping those records before the join produces.  The drops are
    filters: they shrink the joined set and raise nothing. *)
Theorem nonpositive_capacity_excluded (need_all : list Observation)
    (psy : list CapacityRecord) (y : Z) :
  (forall r, In r (plot_actionable need_all psy y) ->
             exists c, psy_per100k (capacity r) = Some c /\ 0 < c) /\
  (forall c r, In c psy ->
               (psy_per100k c = None \/
                exists q, psy_per100k c = Some q /\ q <= 0) ->
               In r (plot_actionable need_all psy y) -> capacity r <> c) /\
  plot_actionable need_all psy y =
    map attach_priority
        (merge (need_y need_all y)
               (filter (fun c => gt0 (psy_per100k c)) (psy_y psy y))).
Proof.
  assert (Hpos : forall r, In r (plot_actionable need_all psy y) ->
                           exists c, psy_per100k (capacity r) = Some c /\ 0 < c).
  { intros r Hr. apply in_plot_actionable in Hr. destruct Hr as [Hp _].
    apply in_merged_pairs in Hp. simpl in Hp. tauto. }
  split; [exact Hpos|]. split.
  - intros c r _ Hbad Hr <-.
    destruct (Hpos r Hr) as (q & Hq & Hlt).
    destruct Hbad as [Hnone|(q' & Hq' & Hle)]; [congruence|].
    rewrite Hq in Hq'. injection Hq' as <-.
    exact (Qlt_not_le _ _ Hlt Hle).
  - unfold plot_actionable, merged_pairs. f_equal.
    rewrite (filter_id_on (fun p => notna (value (fst p))
                                    && notna (psy_per100k (snd p)))).
    + apply (merge_filter_right (fun c => gt0 (psy_per100k c))).
    + intros p Hp. apply in_merge in Hp.
      destruct Hp as (Hn & Hc & _).
      apply in_need_y in Hn. apply in_psy_y in Hc.
      apply andb_true_iff. rewrite !notna_Some. tauto.
Qed.

Lemma nonpositive_capacity_excluded_witness :
  In (obs "Chad" "Both" "Percent" 2020 4) (need_y sample_need 2020) /\
  ~ In (cap "Chad" 2020 0)
       (map capacity (plot_actionable sample_need sample_psy 2020)).
Proof.
  split; [simpl; auto|].
  intros H. apply in_map_iff in H. destruct H as (r & Hc & Hr).
  apply (proj1 (proj2 (nonpositive_capacity_excluded
                         sample_need sample_psy 2020))
               (cap "Chad" 2020 0) r).
  - simpl. auto.
  - right. exists 0. split; [reflexivity|]. vm_compute. discriminate.
  - exact Hr.
  - exact Hc.
Defined.

(** C8: the join is inner.  A location that, in the chosen year, is
    missing from the need rows or from the capacity rows is the location
    of no joined record. *)
Theorem join_is_inner (need_all : list Observation)
    (psy : list CapacityRecord) (y : Z) (loc : option string) :
  ~ In loc (map location (need_y need_all y)) \/
  ~ In loc (map psy_location (psy_y psy y)) ->
  forall r, In r (plot_actionable need_all psy y) ->
            location (need r) <> loc /\ psy_location (capacity r) <> loc.
Proof.
  intros Hout r Hr.
  apply in_plot_actionable in Hr. destruct Hr as [Hp _].
  apply in_merged_pairs in Hp. simpl in Hp.
  destruct Hp as (Hn & Hc & Hy & Hcy & Hl & Hv & (q & Hq & _)).
  assert (Hin1 : In (location (need r)) (map location (need_y need_all y))).
  { apply in_map. apply in_need_y. auto. }
  assert (Hin2 : In (psy_location (capacity r))
                    (map psy_location (psy_y psy y))).
  { apply in_map. apply in_psy_y. eauto. }
  rewrite <- Hl in *.
  assert (Hne : location (need r) <> loc).
  { intros <-. tauto. }
  split; exact Hne.
Qed.

Lemma join_is_inner_witness :
  In (Some "Fiji") (map psy_location (psy_y sample_psy 2020)) /\
  ~ In (Some "Fiji")
       (map (fun r => location (need r))
            (plot_actionable sample_need sample_psy 2020)).
Proof.
  split; [simpl; auto|].
  intros H. apply in_map_iff in H. destruct H as (r & Hl & Hr).
  apply (join_is_inner sample_need sample_psy 2020 (Some "Fiji")) in Hr.
  - destruct Hr as [Hne _]. exact (Hne Hl).
  - left. simpl. intros [H|[H|[H|[]]]]; discriminate.
Defined.

(** ** The sex-split guard *)

Lemma existsb_text (v : option string) (l : list (option string)) :
  existsb (text_eqb v) l = true <-> In v l.
Proof.
  rewrite existsb_exists. split.
  - intros (x & Hx & He). apply text_eqb_eq in He. now subst.
  - intros H. exists v. split; [assumption|]. now apply text_eqb_eq.
Qed.

(** The rows that survive the two filters of lines 113-114. *)
Lemma in_micro_sub (df_micro : list Observation) (y : Z)
    (locations : list string) (r : Observation) :
  In r (filter (fun r => notna (value r))
          (filter (fun r => year_is y (year r) && isin (location r) locations)
                  df_micro)) <->
  In r df_micro /\ year r = Some (whole y) /\ isin (location r) locations = true /\
  exists v, value r = Some v.
Proof.
  rewrite !filter_In, andb_true_iff, year_is_eq, notna_Some. tauto.
Qed.

(** The chart is drawn exactly when the surviving rows hold a "Male" and a
    "Female" label; otherwise the function raises. *)
Lemma sex_split_guard (df_micro : list Observation) (y : Z)
    (locations : list string) :
  let sub :=
    filter (fun r => notna (value r))
      (filter (fun r => year_is y (year r) && isin (location r) locations)
              df_micro) in
  (exists kept, plot_micro_age_sex df_micro y locations = inr kept) <->
  In (Some "Male") (map sex sub) /\ In (Some "Female") (map sex sub).
Proof.
  intros sub. unfold plot_micro_age_sex. fold sub.
  rewrite <- (nodup_In text_eq_dec (map sex sub) (Some "Male")).
  rewrite <- (nodup_In text_eq_dec (map sex sub) (Some "Female")).
  rewrite <- (existsb_text (Some "Male")), <- (existsb_text (Some "Female")).
  rewrite <- andb_true_iff.
  unfold text_set.
  destruct (existsb (text_eqb (Some "Male")) (nodup text_eq_dec (map sex sub))
            && existsb (text_eqb (Some "Female"))
                       (nodup text_eq_dec (map sex sub))); simpl.
  - split; eauto.
  - split; [|discriminate].
    intros [kept H].
    destruct (sorted_text (nodup text_eq_dec (map sex sub))); discriminate.
Qed.

Example micro_sample_drawn :
  plot_micro_age_sex sample_micro 2020 ["Singapore"]
  = inr [obs "Singapore" "Male" "Percent" 2020 4;
         obs "Singapore" "Female" "Percent" 2020 6].
Proof. reflexivity. Qed.

Example micro_both_only :
  plot_micro_age_sex [obs "Singapore" "Both" "Percent" 2020 5] 2020
                     ["Singapore"]
  = inl (MissingSexSplitError [Some "Both"]).
Proof. reflexivity. Qed.

(** When every surviving row has a sex label, the error raised for a
    missing split is the intended one. *)
Lemma sex_split_error (df_micro : list Observation) (y : Z)
    (locations : list string) :
  let sub :=
    filter (fun r => notna (value r))
      (filter (fun r => year_is y (year r) && isin (location r) locations)
              df_micro) in
  ~ In None (map sex sub) ->
  ((exists shown, plot_micro_age_sex df_micro y locations
                  = inl (MissingSexSplitError shown)) <->
   ~ (In (Some "Male") (map sex sub) /\ In (Some "Female") (map sex sub))).
Proof.
  intros sub Hlabel.
  pose proof (sex_split_guard df_micro y locations) as Hguard.
  cbv zeta in Hguard. fold sub in Hguard. rewrite <- Hguard.
  unfold plot_micro_age_sex. fold sub.
  destruct (negb (existsb (text_eqb (Some "Male")) (text_set (map sex sub))
                  && existsb (text_eqb (Some "Female"))
                             (text_set (map sex sub)))).
  - assert (Hs : existsb isna (text_set (map sex sub)) = false).
    { destruct (existsb isna (text_set (map sex sub))) eqn:E; [|reflexivity].
      apply existsb_exists in E. destruct E as ([s|] & Hin & Hna);
        [discriminate|].
      exfalso. apply Hlabel. unfold text_set in Hin.
      now apply nodup_In in Hin. }
    unfold sorted_text. rewrite Hs. simpl. split.
    + intros _ [kept H]. discriminate.
    + intros _. eauto.
  - split.
    + intros [shown H]. discriminate.
    + intros H. exfalso. apply H. eauto.
Qed.

(** C9 breaks on a row without sex label: the surviving labels are NaN and
    "Both", so the split is missing, but sorting them for the message
    raises [TypeError] before the intended error is built. *)
Theorem missing_sex_split_masked_by_type_error :
  plot_micro_age_sex sample_micro_unset 2020 ["Singapore"] = inl TypeError.
Proof. reflexivity. Qed.

(** ** The year reconciler *)

Lemma Zleb_total (a b : Z) : (a <=? b)%Z = true \/ (b <=? a)%Z = true.
Proof. rewrite !Z.leb_le. lia. Qed.

Lemma Zleb_trans (a b c : Z) :
  (a <=? b)%Z = true -> (b <=? c)%Z = true -> (a <=? c)%Z = true.
Proof. rewrite !Z.leb_le. lia. Qed.

Lemma sorted_In (l : list Z) (y : Z) : In y (sorted l) <-> In y l.
Proof. apply argsort_In. Qed.

Lemma sorted_perm (l : list Z) : Permutation l (sorted l).
Proof. apply argsort_perm. Qed.

Lemma sorted_ascending (l : list Z) :
  NoDup l -> StronglySorted Z.lt (sorted l).
Proof.
  intros Hnd.
  assert (Hnd' : NoDup (sorted l))
    by (eapply Permutation_NoDup; [apply sorted_perm|assumption]).
  assert (Hle : StronglySorted Z.le (sorted l)).
  { apply (StronglySorted_weaken (fun a b => (a <=? b)%Z = true)).
    - intros a b. apply Z.leb_le.
    - apply (argsort_sorted Z.leb Zleb_total Zleb_trans). }
  induction Hle as [|x m Hs IH Hf]; [constructor|].
  inversion Hnd' as [|? ? Hx Hm]; subst.
  constructor; [auto|].
  rewrite Forall_forall in *. intros z Hz.
  assert (x <> z) by (intros ->; contradiction).
  specialize (Hf z Hz). lia.
Qed.

(** *** The conversions to integers *)

Lemma truncate_integer_part (q : Qc) : integer_part q (truncate q).
Proof.
  unfold integer_part, truncate.
  destruct (Qle_bool 0 q) eqn:E.
  - apply Qle_bool_iff in E. split.
    + intros _. split; [apply Qfloor_le|apply Qlt_floor].
    + intros Hq.
      assert (H0 : q == 0) by now apply Qle_antisym.
      rewrite (Qfloor_comp _ _ H0), H0. change (Qfloor 0) with 0%Z.
      split; [reflexivity|discriminate].
  - assert (Hneg : q < 0).
    { apply Qnot_le_lt. intros H. apply Qle_bool_iff in H. congruence. }
    split.
    + intros H. exfalso. exact (Qlt_not_le _ _ Hneg H).
    + intros _. split; [apply Qceiling_lt|apply Qle_ceiling].
Qed.

Lemma integer_part_unique (q : Qc) (y : Z) :
  integer_part q y -> y = truncate q.
Proof.
  unfold integer_part, truncate. intros [Hpos Hneg].
  destruct (Qle_bool 0 q) eqn:E.
  - apply Qle_bool_iff in E. destruct (Hpos E) as [H1 H2].
    assert (Ha : (y <= Qfloor q)%Z).
    { rewrite <- (Qfloor_Z y). now apply Qfloor_resp_le. }
    assert (Hb : (Qfloor q < y + 1)%Z).
    { rewrite Zlt_Qlt. apply Qle_lt_trans with q; [apply Qfloor_le|exact H2]. }
    lia.
  - assert (Hq : q <= 0).
    { apply Qlt_le_weak, Qnot_le_lt. intros H.
      apply Qle_bool_iff in H. congruence. }
    destruct (Hneg Hq) as [H1 H2].
    assert (Ha : (Qceiling q <= y)%Z).
    { rewrite <- (Qceiling_Z y). now apply Qceiling_resp_le. }
    assert (Hb : (y - 1 < Qceiling q)%Z).
    { rewrite Zlt_Qlt. apply Qlt_le_trans with q; [exact H1|apply Qle_ceiling]. }
    lia.
Qed.

Lemma astype_int64_spec (a : Year) (y : Z) :
  int64_of a y <-> y = astype_int64 a.
Proof.
  destruct a as [q|b]; unfold int64_of, astype_int64; [|tauto]. split.
  - intros (t & Ht & Hy). apply integer_part_unique in Ht. subst t.
    destruct ((- 2 ^ 63 <=? truncate q) && (truncate q <? 2 ^ 63))%Z eqn:E.
    + destruct Hy as [[_ ->]|[Hout _]]; [reflexivity|].
      apply andb_true_iff in E. destruct E as [E1 E2].
      apply Z.leb_le in E1. apply Z.ltb_lt in E2. lia.
    + destruct Hy as [[[H1 H2] _]|[_ ->]]; [|reflexivity].
      apply Z.leb_le in H1. apply Z.ltb_lt in H2.
      rewrite H1, H2 in E. discriminate.
  - intros ->. exists (truncate q). split; [apply truncate_integer_part|].
    destruct ((- 2 ^ 63 <=? truncate q) && (truncate q <? 2 ^ 63))%Z eqn:E.
    + left. apply andb_true_iff in E. destruct E as [E1 E2].
      apply Z.leb_le in E1. apply Z.ltb_lt in E2. auto.
    + right. split; [|reflexivity]. intros [H1 H2].
      apply Z.leb_le in H1. apply Z.ltb_lt in H2.
      rewrite H1, H2 in E. discriminate.
Qed.

(** *** The sets of years *)

Lemma year_set_In (col : list (option Year)) (y : Z) :
  In y (year_set col) <-> exists a, In (Some a) col /\ int64_of a y.
Proof.
  unfold year_set. rewrite nodup_In, in_map_iff. split.
  - intros (a & <- & Ha). exists a. rewrite <- in_dropna.
    split; [assumption|]. now apply astype_int64_spec.
  - intros (a & Ha & Hy). exists a. rewrite in_dropna.
    split; [|assumption]. symmetry. now apply astype_int64_spec.
Qed.

Lemma year_set_NoDup (col : list (option Year)) : NoDup (year_set col).
Proof. apply NoDup_nodup. Qed.

Lemma in_need_years (need_all : list Observation) (y : Z) :
  In y (need_years need_all) <-> is_need_year need_all y.
Proof.
  unfold need_years, is_need_year. rewrite year_set_In. split.
  - intros (a & Ha & Hy). apply in_map_iff in Ha.
    destruct Ha as (r & Hr & Hin). eauto.
  - intros (r & a & Hr & Ha & Hy). exists a. split; [|assumption].
    rewrite <- Ha. now apply in_map.
Qed.

Lemma in_file_years (psy : list CapacityRecord) (y : Z) :
  In y (year_set (map psy_year psy)) <-> is_file_year psy y.
Proof.
  unfold is_file_year. rewrite year_set_In. split.
  - intros (a & Ha & Hy). apply in_map_iff in Ha.
    destruct Ha as (c & Hc & Hin). eauto.
  - intros (c & a & Hc & Ha & Hy). exists a. split; [|assumption].
    rewrite <- Ha. now apply in_map.
Qed.

Lemma in_with_capacity (psy : list CapacityRecord) (c : CapacityRecord) :
  In c (with_capacity psy) <-> In c psy /\ exists v, psy_per100k c = Some v.
Proof. unfold with_capacity. now rewrite filter_In, notna_Some. Qed.

Lemma in_capacity_years (psy : list CapacityRecord) (a : Year) :
  In a (capacity_years psy) <-> is_capacity_year psy a.
Proof.
  unfold capacity_years, is_capacity_year.
  rewrite nodup_In, in_dropna, in_map_iff. split.
  - intros (c & Hy & Hc). apply in_with_capacity in Hc.
    destruct Hc as [Hc [v Hv]]. eauto.
  - intros (c & v & Hc & Hy & Hv). exists c. split; [assumption|].
    apply in_with_capacity. eauto.
Qed.

Lemma in_year_group (psy : list CapacityRecord) (a : Year) (s : string) :
  In s (nodup string_dec
          (dropna (map psy_location
                       (filter (fun c => year_eqb (psy_year c) (Some a))
                               (with_capacity psy))))) <->
  exists c v, In c psy /\ psy_year c = Some a /\
              psy_per100k c = Some v /\ psy_location c = Some s.
Proof.
  rewrite nodup_In, in_dropna, in_map_iff. split.
  - intros (c & Hs & Hc). apply filter_In in Hc. destruct Hc as [Hc Hy].
    apply in_with_capacity in Hc. destruct Hc as [Hc [v Hv]].
    apply year_eqb_eq in Hy. destruct Hy as (a' & Hy & [= <-]).
    exists c, v. auto.
  - intros (c & v & Hc & Hy & Hv & Hs). exists c. split; [assumption|].
    apply filter_In. split; [apply in_with_capacity; eauto|].
    apply year_eqb_eq. eauto.
Qed.

(** The coverage of a year is the number of its locations, however they
    are listed. *)
Lemma coverage_locations (psy : list CapacityRecord) (a : Year)
    (locs : list string) :
  locations_of psy a locs -> List.length locs = coverage psy a.
Proof.
  intros [Hnd Hin]. unfold coverage.
  apply Permutation_length, NoDup_Permutation;
    [assumption|apply NoDup_nodup|].
  intros s. now rewrite Hin, in_year_group.
Qed.

Lemma locations_exist (psy : list CapacityRecord) (a : Year) :
  exists locs, locations_of psy a locs.
Proof.
  exists (nodup string_dec
            (dropna (map psy_location
                         (filter (fun c => year_eqb (psy_year c) (Some a))
                                 (with_capacity psy))))).
  split; [apply NoDup_nodup|]. intros s. apply in_year_group.
Qed.

(** *** The previews of the error message *)

Lemma preview_head (s : list Z) :
  NoDup s -> preview_of (fun y => In y s) (head 10 (sorted s)).
Proof.
  intros Hnd. pose proof (sorted_ascending s Hnd) as Hs.
  unfold head. rewrite <- (firstn_skipn 10 (sorted s)) in Hs.
  split; [|split; [|split]].
  - exact (StronglySorted_app_l _ _ _ Hs).
  - rewrite length_firstn. lia.
  - intros y Hy. apply sorted_In.
    rewrite <- (firstn_skipn 10 (sorted s)). apply in_or_app. auto.
  - intros y Hy Hout.
    apply sorted_In in Hy.
    rewrite <- (firstn_skipn 10 (sorted s)) in Hy.
    apply in_app_or in Hy. destruct Hy as [Hy|Hy]; [contradiction|].
    split.
    + rewrite length_firstn.
      destruct (Nat.le_gt_cases (List.length (sorted s)) 10) as [Hle|Hgt];
        [|lia].
      rewrite (skipn_all2 _ Hle) in Hy. destruct Hy.
    + intros x Hx.
      exact (StronglySorted_app_inv _ _ _ Hs x y Hx Hy).
Qed.

Lemma preview_of_ext (P Q : Z -> Prop) (shown : list Z) :
  (forall y, P y <-> Q y) -> preview_of P shown -> preview_of Q shown.
Proof.
  intros Hext (H1 & H2 & H3 & H4).
  split; [assumption|]. split; [assumption|]. split.
  - intros y Hy. apply Hext. auto.
  - intros y Hy. apply H4. now apply Hext.
Qed.

(** *** The comprehension of line 85 *)

Lemma comprehension_overflow (ny : list Z) (index : list Year) (b : bool) :
  In (Infinite b) index -> comprehension ny index = inl OverflowError.
Proof.
  induction index as [|a index IH]; simpl; [tauto|].
  intros [->|Hin]; [reflexivity|].
  destruct a as [q|b']; simpl; [|reflexivity].
  now rewrite (IH Hin).
Qed.

Lemma comprehension_inl (ny : list Z) (index : list Year) (e : Exception) :
  comprehension ny index = inl e ->
  e = OverflowError /\ exists b, In (Infinite b) index.
Proof.
  induction index as [|a index IH]; simpl; [discriminate|].
  destruct a as [q|b]; simpl.
  - destruct (comprehension ny index) as [e'|ys]; [|discriminate].
    intros [= <-]. destruct (IH eq_refl) as [He [b Hb]]. eauto.
  - intros [= <-]. eauto.
Qed.

Lemma comprehension_filter (ny : list Z) (qs : list Qc) :
  comprehension ny (map Finite qs)
  = inr (filter (fun y => existsb (Z.eqb y) ny) (map truncate qs)).
Proof.
  induction qs as [|q qs IH]; simpl; [reflexivity|].
  rewrite IH. reflexivity.
Qed.

Lemma all_finite (index : list Year) :
  (forall b, ~ In (Infinite b) index) -> exists qs, index = map Finite qs.
Proof.
  induction index as [|a index IH]; intros H.
  - now exists [].
  - destruct IH as [qs ->]; [intros b Hb; apply (H b); now right|].
    destruct a as [q|b].
    + now exists (q :: qs).
    + exfalso. apply (H b). now left.
Qed.

(** *** The ranking of the years *)

Lemma count_leb_total (a b : Year * nat) :
  count_leb a b = true \/ count_leb b a = true.
Proof. unfold count_leb. rewrite !Nat.leb_le. lia. Qed.

Lemma count_leb_trans (a b c : Year * nat) :
  count_leb a b = true -> count_leb b c = true -> count_leb a c = true.
Proof. unfold count_leb. rewrite !Nat.leb_le. lia. Qed.

Lemma in_nunique_by_year (psy : list CapacityRecord) (e : Year * nat) :
  In e (nunique_by_year psy) <->
  is_capacity_year psy (fst e) /\ snd e = coverage psy (fst e).
Proof.
  unfold nunique_by_year. rewrite in_map_iff, <- in_capacity_years. split.
  - intros (q & <- & Hq).
    apply (proj1 (argsort_In year_leb _ _)) in Hq. simpl. auto.
  - destruct e as [q n]; simpl. intros [Hq ->].
    exists q. split; [reflexivity|].
    exact (proj2 (argsort_In year_leb _ _) Hq).
Qed.

Lemma filter_map_swap {A B : Type} (p : B -> bool) (f : A -> B)
    (l : list A) :
  filter p (map f l) = map f (filter (fun a => p (f a)) l).
Proof.
  induction l as [|a l IH]; simpl; [reflexivity|].
  destruct (p (f a)); simpl; now rewrite IH.
Qed.

Lemma StronglySorted_after {A : Type} (R : A -> A -> Prop)
    (l1 l2 : list A) (x : A) :
  StronglySorted R (l1 ++ x :: l2) -> Forall (R x) l2.
Proof.
  induction l1 as [|a l1 IH]; simpl; intros H;
    inversion H; subst; auto.
Qed.

Lemma existsb_Zeqb (y : Z) (l : list Z) :
  existsb (Z.eqb y) l = true <-> In y l.
Proof.
  rewrite existsb_exists. split.
  - intros (x & Hx & He). apply Z.eqb_eq in He. now subst.
  - intros H. exists y. split; [assumption|apply Z.eqb_refl].
Qed.

Section Reconciler.
Context (quick : Quicksort) (Hquick : sorts quick).

Lemma psy_counts_desc (psy : list CapacityRecord) :
  psy_counts quick psy
  = rev (quick (Year * nat)%type count_leb (rev (nunique_by_year psy))).
Proof.
  unfold psy_counts. now apply sort_values_desc_nonan.
Qed.

Lemma in_psy_counts (psy : list CapacityRecord) (e : Year * nat) :
  In e (psy_counts quick psy) <->
  is_capacity_year psy (fst e) /\ snd e = coverage psy (fst e).
Proof.
  rewrite psy_counts_desc, <- in_nunique_by_year.
  pose proof (desc_perm quick Hquick count_leb count_leb_total
                count_leb_trans (nunique_by_year psy)) as Hp.
  split; apply Permutation_in; [now symmetry|assumption].
Qed.

(** The ranking of line 83: a larger coverage comes first. *)
Lemma psy_counts_ranked (psy : list CapacityRecord) :
  StronglySorted (fun a b => (snd b <= snd a)%nat) (psy_counts quick psy).
Proof.
  rewrite psy_counts_desc.
  apply (StronglySorted_weaken (fun a b => count_leb b a = true)).
  - intros a b. unfold count_leb. now rewrite Nat.leb_le.
  - apply (desc_sorted quick Hquick count_leb count_leb_total
             count_leb_trans).
Qed.

Lemma in_index (psy : list CapacityRecord) (a : Year) :
  In a (map fst (psy_counts quick psy)) <-> is_capacity_year psy a.
Proof.
  rewrite in_map_iff. split.
  - intros (e & <- & He). now apply in_psy_counts in He.
  - intros Ha. exists (a, coverage psy a). split; [reflexivity|].
    apply in_psy_counts. auto.
Qed.

(** [int] raises on an infinite capacity year, and only then. *)
Lemma candidates_overflow (need_all : list Observation)
    (psy : list CapacityRecord) :
  (exists b, is_capacity_year psy (Infinite b)) <->
  candidates quick need_all psy = inl OverflowError.
Proof.
  unfold candidates. split.
  - intros [b Hb]. apply (comprehension_overflow _ _ b). now apply in_index.
  - intros H. apply comprehension_inl in H. destruct H as [_ [b Hb]].
    exists b. now apply in_index.
Qed.

Lemma candidates_inl (need_all : list Observation)
    (psy : list CapacityRecord) (e : Exception) :
  candidates quick need_all psy = inl e -> e = OverflowError.
Proof. intros H. now apply comprehension_inl in H. Qed.

(** Without an infinite capacity year the comprehension is a filter. *)
Lemma candidates_finite (need_all : list Observation)
    (psy : list CapacityRecord) :
  (forall b, ~ is_capacity_year psy (Infinite b)) ->
  exists qs,
    map fst (psy_counts quick psy) = map Finite qs /\
    candidates quick need_all psy
    = inr (filter (fun y => existsb (Z.eqb y) (need_years need_all))
                  (map truncate qs)).
Proof.
  intros Hfin.
  destruct (all_finite (map fst (psy_counts quick psy))) as [qs Hqs].
  { intros b Hb. apply (Hfin b). now apply in_index. }
  exists qs. split; [assumption|].
  unfold candidates. rewrite Hqs. apply comprehension_filter.
Qed.

Lemma candidates_inr_finite (need_all : list Observation)
    (psy : list CapacityRecord) (ys : list Z) :
  candidates quick need_all psy = inr ys ->
  forall b, ~ is_capacity_year psy (Infinite b).
Proof.
  intros H b Hb.
  assert (Hov : candidates quick need_all psy = inl OverflowError)
    by (apply candidates_overflow; eauto).
  congruence.
Qed.

(** A candidate is the integer part of a finite capacity year, and a need
    year. *)
Lemma in_candidates (need_all : list Observation)
    (psy : list CapacityRecord) (ys : list Z) (y : Z) :
  candidates quick need_all psy = inr ys ->
  In y ys <->
  is_need_year need_all y /\
  exists q, is_capacity_year psy (Finite q) /\ integer_part q y.
Proof.
  intros Hc.
  destruct (candidates_finite need_all psy
              (candidates_inr_finite _ _ _ Hc)) as (qs & Hqs & Hf).
  rewrite Hc in Hf. injection Hf as ->.
  rewrite filter_In, existsb_Zeqb, in_map_iff, in_need_years.
  split.
  - intros [(q & <- & Hq) Hn]. split; [assumption|]. exists q.
    split; [|apply truncate_integer_part].
    apply in_index. rewrite Hqs. now apply in_map.
  - intros [Hn (q & Hq & Hy)]. split; [|assumption].
    exists q. split; [symmetry; now apply integer_part_unique|].
    apply in_index in Hq. rewrite Hqs in Hq.
    apply in_map_iff in Hq. destruct Hq as (q' & [= ->] & Hq'). assumption.
Qed.

Lemma map_eq_app_cons {A B : Type} (f : A -> B) (l : list A)
    (l1 l2 : list B) (x : B) :
  map f l = l1 ++ x :: l2 ->
  exists m1 a m2, l = m1 ++ a :: m2 /\ map f m1 = l1 /\ f a = x /\
                  map f m2 = l2.
Proof.
  revert l1. induction l as [|a l IH]; intros [|b l1]; simpl;
    try discriminate.
  - intros [= <- <-]. exists [], a, l. auto.
  - intros [= <- H]. destruct (IH _ H) as (m1 & a' & m2 & -> & <- & <- & <-).
    exists (a :: m1), a', m2. auto.
Qed.

(** The first candidate comes from a capacity year that no other
    candidate's year outdoes in coverage. *)
Lemma first_candidate (need_all : list Observation)
    (psy : list CapacityRecord) (y : Z) (rest : list Z) :
  candidates quick need_all psy = inr (y :: rest) ->
  exists q,
    is_capacity_year psy (Finite q) /\ integer_part q y /\
    forall q', is_capacity_year psy (Finite q') ->
               is_need_year need_all (truncate q') ->
               (coverage psy (Finite q') <= coverage psy (Finite q))%nat.
Proof.
  intros Hc.
  destruct (candidates_finite need_all psy
              (candidates_inr_finite _ _ _ Hc)) as (qs & Hqs & Hf).
  rewrite Hc in Hf. injection Hf as Hf. symmetry in Hf.
  rewrite filter_map_swap in Hf.
  destruct (filter (fun a => existsb (Z.eqb (truncate a))
                                     (need_years need_all)) qs)
    as [|q0 qs0] eqn:Hfq; [discriminate|].
  simpl in Hf. injection Hf as <- _.
  destruct (filter_first _ _ _ _ Hfq) as (l1 & l2 & Hl & He & Hl1).
  rewrite Hl, map_app in Hqs. simpl in Hqs.
  destruct (map_eq_app_cons _ _ _ _ _ Hqs)
    as (m1 & e & m2 & Hpc & Hm1 & He0 & Hm2).
  assert (Hin : In e (psy_counts quick psy)) by (rewrite Hpc; apply in_elt).
  apply in_psy_counts in Hin. destruct Hin as [Hcap Hcov].
  rewrite He0 in Hcap, Hcov.
  exists q0. split; [assumption|].
  split; [apply truncate_integer_part|].
  intros q' Hq' Hn'.
  assert (Hin' : In (Finite q', coverage psy (Finite q'))
                    (psy_counts quick psy))
    by (apply in_psy_counts; simpl; auto).
  pose proof (psy_counts_ranked psy) as Hs. rewrite Hpc in Hs, Hin'.
  apply StronglySorted_after in Hs. rewrite Forall_forall in Hs, Hl1.
  apply in_app_or in Hin'. destruct Hin' as [Hin'|[Heq|Hin']].
  - exfalso.
    assert (Hq1 : In q' l1).
    { apply (in_map fst) in Hin'. rewrite Hm1 in Hin'. simpl in Hin'.
      apply in_map_iff in Hin'.
      destruct Hin' as (q'' & [= ->] & Hq''). assumption. }
    specialize (Hl1 _ Hq1). simpl in Hl1.
    apply in_need_years, existsb_Zeqb in Hn'. congruence.
  - rewrite Heq in Hcov. simpl in Hcov.
    rewrite Heq in He0. simpl in He0. injection He0 as ->. lia.
  - specialize (Hs _ Hin'). simpl in Hs. rewrite <- Hcov. exact Hs.
Qed.

Lemma candidates_nil (need_all : list Observation)
    (psy : list CapacityRecord) :
  candidates quick need_all psy = inr [] <->
  (forall b, ~ is_capacity_year psy (Infinite b)) /\
  ~ exists q y, is_capacity_year psy (Finite q) /\ integer_part q y /\
                is_need_year need_all y.
Proof.
  split.
  - intros H. split; [exact (candidates_inr_finite _ _ _ H)|].
    intros (q & y & Hq & Hy & Hn).
    assert (Hin : In y []) by (apply (in_candidates _ _ _ y H); eauto).
    destruct Hin.
  - intros [Hfin H].
    destruct (candidates quick need_all psy) as [e|[|y rest]] eqn:E.
    + exfalso. pose proof (candidates_inl _ _ _ E) as ->.
      apply candidates_overflow in E. destruct E as [b Hb].
      exact (Hfin b Hb).
    + reflexivity.
    + assert (Hy : In y (y :: rest)) by (left; auto).
      apply (in_candidates _ _ _ y E) in Hy.
      destruct Hy as [Hn (q & Hq & Hy)].
      exfalso. apply H. eauto.
Qed.
End Reconciler.

Example choose_sample_year :
  choose_actionable_year stable_sort sample_need sample_psy = inr 2020%Z.
Proof. reflexivity. Qed.

Example choose_sample_apart :
  choose_actionable_year stable_sort sample_need_apart sample_psy_apart
  = inl (NoOverlapError [2010; 2015]%Z [2018; 2019]%Z).
Proof. reflexivity. Qed.

Lemma sample_psy_finite (b : bool) : ~ is_capacity_year sample_psy (Infinite b).
Proof.
  intros (c & v & Hin & Hy & _). simpl in Hin.
  repeat (destruct Hin as [<-|Hin]; [discriminate Hy|]). destruct Hin.
Qed.

(** Two year cells that hold different numbers are not equal. *)
Ltac year_clash H :=
  apply (f_equal (fun o => match o with
                           | Some (Finite q) => Qnum q
                           | _ => 0%Z
                           end)) in H;
  vm_compute in H; discriminate H.

Lemma whole_integer_part (y : Z) :
  integer_part (Q2Qc (inject_Z y)) y.
Proof.
  assert (H : Q2Qc (inject_Z y) == inject_Z y) by apply Qred_correct.
  unfold integer_part. rewrite H.
  split; intros _; split; try apply Qle_refl; rewrite <- Zlt_Qlt; lia.
Qed.

(** C1, as the code has it: when no capacity year is infinite and some
    capacity year (a year with a capacity value) has a need year as its
    integer part, the reconciler returns a need year that is the integer
    part of a capacity year, and no capacity year whose integer part is
    a need year has more distinct locations with a capacity value than
    that one.  Which of several years of equal coverage is returned is
    left to the sorting routine. *)
Theorem year_reconciler_choice (quick : Quicksort)
    (need_all : list Observation) (psy : list CapacityRecord) :
  sorts quick ->
  (forall b, ~ is_capacity_year psy (Infinite b)) ->
  years_meet need_all psy ->
  exists y q locs,
    choose_actionable_year quick need_all psy = inr y /\
    is_need_year need_all y /\
    is_capacity_year psy (Finite q) /\ integer_part q y /\
    locations_of psy (Finite q) locs /\
    forall q' y' locs',
      is_capacity_year psy (Finite q') -> integer_part q' y' ->
      is_need_year need_all y' -> locations_of psy (Finite q') locs' ->
      (List.length locs' <= List.length locs)%nat.
Proof.
  intros Hquick Hfin Hmeet. unfold choose_actionable_year.
  destruct (candidates quick need_all psy) as [e|[|y rest]] eqn:E.
  - exfalso. pose proof (candidates_inl _ _ _ _ E) as ->.
    apply (candidates_overflow quick Hquick) in E.
    destruct E as [b Hb]. exact (Hfin b Hb).
  - exfalso. apply (candidates_nil quick Hquick) in E. tauto.
  - destruct (first_candidate quick Hquick _ _ _ _ E)
      as (q & Hq & Hy & Hmax).
    destruct (locations_exist psy (Finite q)) as [locs Hlocs].
    exists y, q, locs. split; [reflexivity|].
    split.
    { apply (in_candidates quick Hquick _ _ _ y E). now left. }
    split; [assumption|]. split; [assumption|]. split; [assumption|].
    intros q' y' locs' Hq' Hy' Hn' Hl'.
    rewrite (coverage_locations _ _ _ Hl'), (coverage_locations _ _ _ Hlocs).
    apply Hmax; [assumption|].
    now rewrite <- (integer_part_unique _ _ Hy').
Qed.

Lemma year_reconciler_choice_witness :
  exists y q locs,
    choose_actionable_year stable_sort sample_need sample_psy = inr y /\
    is_need_year sample_need y /\
    is_capacity_year sample_psy (Finite q) /\ integer_part q y /\
    locations_of sample_psy (Finite q) locs /\
    forall q' y' locs',
      is_capacity_year sample_psy (Finite q') -> integer_part q' y' ->
      is_need_year sample_need y' ->
      locations_of sample_psy (Finite q') locs' ->
      (List.length locs' <= List.length locs)%nat.
Proof.
  apply (year_reconciler_choice stable_sort sample_need sample_psy).
  - apply stable_sort_sorts.
  - apply sample_psy_finite.
  - exists (Q2Qc (inject_Z 2019)), 2019%Z. split; [|split].
    + exists (cap "Peru" 2019 3), 3. simpl. tauto.
    + apply whole_integer_part.
    + apply in_need_years. simpl. tauto.
Defined.

(** C1 as stated fails.  Of two years of equal coverage the stable
    routine returns the smaller and the reversing routine the larger.
    And with the year 2019 in both files, two locations in the capacity
    year 2020.5 make the reconciler return 2020, which is no capacity
    year. *)
Lemma year_reconciler_departures :
  sorts stable_sort /\ sorts reversing_sort /\
  (locations_of sample_psy_two_years (whole 2010) ["Chad"] /\
   locations_of sample_psy_two_years (whole 2011) ["Chad"] /\
   choose_actionable_year stable_sort sample_need_two_years
     sample_psy_two_years = inr 2010%Z /\
   choose_actionable_year reversing_sort sample_need_two_years
     sample_psy_two_years = inr 2011%Z) /\
  (is_need_year sample_need_mixed 2019%Z /\
   is_capacity_year sample_psy_mixed (whole 2019) /\
   choose_actionable_year stable_sort sample_need_mixed sample_psy_mixed
   = inr 2020%Z /\
   choose_actionable_year reversing_sort sample_need_mixed sample_psy_mixed
   = inr 2020%Z /\
   ~ is_capacity_year sample_psy_mixed (whole 2020)).
Proof.
  split; [apply stable_sort_sorts|]. split; [apply reversing_sort_sorts|].
  assert (Hloc : forall y, y = 2010%Z \/ y = 2011%Z ->
                           locations_of sample_psy_two_years (whole y)
                             ["Chad"]).
  { intros y Hy. split.
    - constructor; [simpl; tauto|constructor].
    - intros s. rewrite <- in_year_group.
      destruct Hy as [->| ->]; reflexivity. }
  split.
  { split; [apply Hloc; auto|]. split; [apply Hloc; auto|].
    split; reflexivity. }
  split; [apply in_need_years; simpl; tauto|].
  split; [exists (cap "Chad" 2019 1), 1; simpl; tauto|].
  split; [reflexivity|]. split; [reflexivity|].
  intros (c & v & Hin & Hy & _). simpl in Hin.
  destruct Hin as [<-|[<-|[<-|[]]]]; year_clash Hy.
Qed.

(** C5, as the code has it: the reconciler raises [OverflowError]
    exactly when a capacity year is infinite.  Otherwise it raises the
    no-overlap error exactly when no capacity year has a need year as
    its integer part; the error then shows the first ten need years and
    the first ten years of the capacity file, rows without a capacity
    value included, both ascending.  A year that is returned is a need
    year and the integer part of a capacity year. *)
Theorem no_overlap_error (quick : Quicksort)
    (need_all : list Observation) (psy : list CapacityRecord) :
  sorts quick ->
  ((exists b, is_capacity_year psy (Infinite b)) <->
   choose_actionable_year quick need_all psy = inl OverflowError) /\
  ((forall b, ~ is_capacity_year psy (Infinite b)) /\
   ~ years_meet need_all psy <->
   exists shown_need shown_psych,
     choose_actionable_year quick need_all psy
     = inl (NoOverlapError shown_need shown_psych)) /\
  (forall shown_need shown_psych,
     choose_actionable_year quick need_all psy
     = inl (NoOverlapError shown_need shown_psych) ->
     preview_of (is_need_year need_all) shown_need /\
     preview_of (is_file_year psy) shown_psych) /\
  (forall y,
     choose_actionable_year quick need_all psy = inr y ->
     is_need_year need_all y /\
     exists q, is_capacity_year psy (Finite q) /\ integer_part q y).
Proof.
  intros Hquick.
  pose proof (candidates_overflow quick Hquick need_all psy) as Hov.
  pose proof (candidates_nil quick Hquick need_all psy) as Hnil.
  unfold choose_actionable_year.
  destruct (candidates quick need_all psy) as [e|[|y rest]] eqn:E.
  - pose proof (candidates_inl _ _ _ _ E) as ->.
    split; [tauto|]. split.
    + split.
      * intros [Hfin _]. exfalso.
        destruct (proj2 Hov eq_refl) as [b Hb]. exact (Hfin b Hb).
      * intros (a & b & H). discriminate.
    + split; intros; discriminate.
  - split.
    { split; [|discriminate]. intros [b Hb]. exfalso.
      exact (proj1 (proj1 Hnil eq_refl) b Hb). }
    split.
    { split; [eauto|]. intros _. now apply Hnil. }
    split; [|intros; discriminate].
    intros a b [= <- <-]. split.
    + apply (preview_of_ext (fun y => In y (need_years need_all))).
      * intros y. apply in_need_years.
      * apply preview_head, year_set_NoDup.
    + apply (preview_of_ext (fun y => In y (year_set (map psy_year psy)))).
      * intros y. apply in_file_years.
      * apply preview_head, year_set_NoDup.
  - assert (Hy : In y (y :: rest)) by now left.
    apply (in_candidates quick Hquick _ _ _ y E) in Hy.
    split.
    { split; [|discriminate]. intros Hinf.
      apply Hov in Hinf. discriminate. }
    split.
    { split; [|intros (a & b & H); discriminate].
      intros [_ Hno]. exfalso. apply Hno.
      destruct Hy as [Hn (q & Hq & Hp)]. exists q, y. auto. }
    split; [intros; discriminate|].
    intros y' [= <-]. exact Hy.
Qed.

Lemma no_overlap_error_witness :
  ~ years_meet sample_need_apart sample_psy_apart /\
  preview_of (is_need_year sample_need_apart) [2010; 2015]%Z /\
  preview_of (is_file_year sample_psy_apart) [2018; 2019]%Z.
Proof.
  destruct (no_overlap_error stable_sort sample_need_apart sample_psy_apart
              stable_sort_sorts) as (_ & H2 & H3 & _).
  split.
  - apply H2. eexists _, _. reflexivity.
  - apply H3. reflexivity.
Defined.

(** The year sets {2020} and {2020.5} do not meet, and 2020 is returned.
    The second preview shows 2005, a year without any capacity value.
    An infinite capacity year ends the run although 2020 is in both
    sets. *)
Lemma no_overlap_error_departures :
  (choose_actionable_year stable_sort sample_need_2020 sample_psy_half_year
   = inr 2020%Z /\
   forall a, is_capacity_year sample_psy_half_year a ->
             a = Finite (Q2Qc (4041 # 2))) /\
  (choose_actionable_year stable_sort sample_need_2005
     sample_psy_2005_missing
   = inl (NoOverlapError [2005]%Z [2005; 2020; 2021]%Z) /\
   ~ is_capacity_year sample_psy_2005_missing (whole 2005)) /\
  (choose_actionable_year stable_sort sample_need_2020 sample_psy_infinite
   = inl OverflowError /\
   is_capacity_year sample_psy_infinite (whole 2020) /\
   is_need_year sample_need_2020 2020%Z).
Proof.
  split; [|split].
  - split; [reflexivity|].
    intros a (c & v & Hin & Hy & _). simpl in Hin.
    destruct Hin as [<-|[]]. now injection Hy as <-.
  - split; [reflexivity|].
    intros (c & v & Hin & Hy & Hv). simpl in Hin.
    destruct Hin as [<-|[<-|[<-|[]]]].
    + discriminate Hv.
    + year_clash Hy.
    + year_clash Hy.
  - split; [reflexivity|]. split.
    + exists (cap "Chad" 2020 1), 1. simpl. tauto.
    + apply in_need_years. simpl. tauto.
Qed.

(** ** The shortlist *)

Lemma priority_leb_total (a b : JoinedRecord) :
  priority_leb a b = true \/ priority_leb b a = true.
Proof.
  unfold priority_leb.
  destruct (priority_index a) as [x|], (priority_index b) as [z|]; auto.
  rewrite !Qle_bool_iff.
  destruct (Qlt_le_dec x z) as [H|H]; [left; now apply Qlt_le_weak|auto].
Qed.

Lemma priority_leb_trans (a b c : JoinedRecord) :
  priority_leb a b = true -> priority_leb b c = true ->
  priority_leb a c = true.
Proof.
  unfold priority_leb.
  destruct (priority_index a) as [x|], (priority_index b) as [z|],
           (priority_index c) as [w|]; auto; try discriminate.
  rewrite !Qle_bool_iff. apply Qle_trans.
Qed.

Lemma plot_actionable_priority (need_all : list Observation)
    (psy : list CapacityRecord) (y : Z) (r : JoinedRecord) :
  In r (plot_actionable need_all psy y) -> exists x, priority_index r = Some x.
Proof.
  intros Hr.
  destruct (joined_priority _ _ _ _ Hr) as (n & c & _ & _ & H).
  eauto.
Qed.

Lemma StronglySorted_weaken_in {A : Type} (R S : A -> A -> Prop)
    (l : list A) :
  (forall a b, In a l -> In b l -> R a b -> S a b) ->
  StronglySorted R l -> StronglySorted S l.
Proof.
  intros HRS Hs; induction Hs as [|x l Hs IH Hf]; constructor.
  - apply IH. intros a b Ha Hb. apply HRS; now right.
  - rewrite Forall_forall in *. intros z Hz.
    apply HRS; [now left|now right|auto].
Qed.

(** A frame without NaN in the key column, under any sorting routine:
    [sort_values] rearranges it with the keys descending, however the
    keys were computed. *)
Lemma ranking_of_frame (quick : Quicksort) (l : list JoinedRecord) :
  sorts quick ->
  (forall r, In r l -> exists x, priority_index r = Some x) ->
  exists ranked,
    sort_values_desc quick priority_leb (fun r => isna (priority_index r)) l
    = ranked /\
    Permutation l ranked /\ StronglySorted priority_ge ranked.
Proof.
  intros Hquick Hsome.
  exists (rev (quick JoinedRecord priority_leb (rev l))).
  pose proof (desc_perm quick Hquick priority_leb priority_leb_total
                priority_leb_trans l) as Hperm.
  split; [|split; [exact Hperm|]].
  - apply sort_values_desc_nonan. intros r Hr.
    destruct (Hsome r Hr) as [x ->]. reflexivity.
  - apply (StronglySorted_weaken_in (fun a b => priority_leb b a = true)).
    + intros a b Ha Hb. unfold priority_leb, priority_ge.
      destruct (Hsome a) as [x ->];
        [eapply Permutation_in; [symmetry; exact Hperm|exact Ha]|].
      destruct (Hsome b) as [z ->];
        [eapply Permutation_in; [symmetry; exact Hperm|exact Hb]|].
      apply Qle_bool_iff.
    + apply (desc_sorted quick Hquick priority_leb priority_leb_total
               priority_leb_trans).
Qed.

(** C2, as the code has it: the shortlist is the first 15 records of an
    arrangement of the joined set in which the priority index never
    increases.  The order of records with equal priority index is not
    part of it: the location plays no part, and the sorting routine
    decides. *)
Theorem top_is_head_of_ranking (quick : Quicksort)
    (need_all : list Observation) (psy : list CapacityRecord) (y : Z) :
  sorts quick ->
  exists ranked,
    top quick need_all psy y = firstn 15 ranked /\
    Permutation (plot_actionable need_all psy y) ranked /\
    StronglySorted priority_ge ranked.
Proof.
  intros Hquick.
  destruct (ranking_of_frame quick (plot_actionable need_all psy y) Hquick
              (plot_actionable_priority need_all psy y))
    as (ranked & Heq & Hperm & Hsorted).
  exists ranked. unfold top, head. rewrite Heq. auto.
Qed.

Lemma top_is_head_of_ranking_witness :
  exists ranked,
    top stable_sort sample_need sample_psy 2020 = firstn 15 ranked /\
    Permutation (plot_actionable sample_need sample_psy 2020) ranked /\
    StronglySorted priority_ge ranked.
Proof.
  apply (top_is_head_of_ranking stable_sort sample_need sample_psy 2020).
  apply stable_sort_sorts.
Defined.

(** C2 as stated fails.  Zambia ties with Angola and Chad with Peru.  The
    stable routine lists Zambia, Angola, Chad, Peru, the order of the need
    file; the reversing routine lists Angola, Zambia, Peru, Chad.  Neither
    is the order by location within ties, and the two differ. *)
Lemma top_ties_open :
  sorts stable_sort /\ sorts reversing_sort /\
  map (fun r => location (need r))
      (top stable_sort sample_need_ties sample_psy_ties 2020)
  = [Some "Zambia"; Some "Angola"; Some "Chad"; Some "Peru"] /\
  map (fun r => location (need r))
      (top reversing_sort sample_need_ties sample_psy_ties 2020)
  = [Some "Angola"; Some "Zambia"; Some "Peru"; Some "Chad"] /\
  ~ StronglySorted ranked_before
      (top stable_sort sample_need_ties sample_psy_ties 2020) /\
  ~ StronglySorted ranked_before
      (top reversing_sort sample_need_ties sample_psy_ties 2020).
Proof.
  split; [apply stable_sort_sorts|]. split; [apply reversing_sort_sorts|].
  split; [reflexivity|]. split; [reflexivity|]. split.
  - intros H. inversion H as [|a l _ Hf]; subst.
    inversion Hf as [|b l' Hab _]; subst.
    vm_compute in Hab.
    destruct Hab as [Hlt|[_ Hloc]]; discriminate.
  - intros H. inversion H as [|a l Hs _]; subst.
    inversion Hs as [|b l' Hs' _]; subst.
    inversion Hs' as [|c l'' _ Hf]; subst.
    inversion Hf as [|d l3 Hcd _]; subst.
    vm_compute in Hcd.
    destruct Hcd as [Hlt|[_ Hloc]]; discriminate.
Qed.

(** ** Age labels *)

Example age_sort_key_band : age_sort_key (Some "15-19 years") = 15.
Proof. reflexivity. Qed.

Example age_sort_key_under : age_sort_key (Some " <5 Years ") = 5.
Proof. reflexivity. Qed.

Example age_sort_key_all_ages : age_sort_key (Some "All ages") = 999.
Proof. reflexivity. Qed.

Lemma digit_not_space (c : ascii) : is_digit c = true -> is_space c = false.
Proof.
  destruct c as [[] [] [] [] [] [] [] []]; vm_compute; congruence.
Qed.

Lemma lower_ascii_digit (c : ascii) : is_digit (lower_ascii c) = is_digit c.
Proof.
  destruct c as [[] [] [] [] [] [] [] []]; reflexivity.
Qed.

Lemma lower_ascii_fixes_digit (c : ascii) :
  is_digit c = true -> lower_ascii c = c.
Proof.
  destruct c as [[] [] [] [] [] [] [] []]; vm_compute; congruence.
Qed.

Lemma append_assoc (a b c : string) :
  ((a ++ b) ++ c)%string = (a ++ (b ++ c))%string.
Proof. induction a as [|x a IH]; simpl; [reflexivity|now rewrite IH]. Qed.

Lemma append_empty_r (a : string) : (a ++ "")%string = a.
Proof. induction a as [|x a IH]; simpl; [reflexivity|now rewrite IH]. Qed.

(** Once a digit has been gathered, the loop gathers the digits that
    follow and stops. *)
Lemma scan_digits_run (acc ds post : string) :
  all_digits ds = true -> no_digit_ahead post = true ->
  (acc ++ ds)%string <> "" ->
  scan_digits acc (ds ++ post) = (acc ++ ds)%string.
Proof.
  revert acc; induction ds as [|c ds IH]; simpl; intros acc Hd Hp Hne.
  - rewrite append_empty_r in *.
    destruct post as [|x post]; simpl; [reflexivity|].
    simpl in Hp. apply negb_true_iff in Hp. rewrite Hp.
    destruct acc; [congruence|reflexivity].
  - apply andb_true_iff in Hd. destruct Hd as [Hc Hd]. rewrite Hc.
    rewrite IH; auto.
    + now rewrite append_assoc.
    + rewrite append_assoc. simpl. destruct acc; discriminate.
Qed.

(** Before the first digit the loop gathers nothing. *)
Lemma scan_digits_skip (pre rest : string) :
  no_digit pre = true ->
  scan_digits "" (pre ++ rest) = scan_digits "" rest.
Proof.
  induction pre as [|c pre IH]; simpl; intros H; [reflexivity|].
  apply andb_true_iff in H. destruct H as [Hc H].
  apply negb_true_iff in Hc. rewrite Hc. auto.
Qed.

Lemma scan_digits_none (s : string) :
  no_digit s = true -> scan_digits "" s = "".
Proof.
  intros H. rewrite <- (append_empty_r s).
  now rewrite scan_digits_skip.
Qed.

Lemma lower_string_app (a b : string) :
  lower_string (a ++ b) = (lower_string a ++ lower_string b)%string.
Proof. induction a as [|x a IH]; simpl; [reflexivity|now rewrite IH]. Qed.

Lemma lower_string_digits (ds : string) :
  all_digits ds = true -> lower_string ds = ds.
Proof.
  induction ds as [|c ds IH]; simpl; intros H; [reflexivity|].
  apply andb_true_iff in H. destruct H as [Hc H].
  now rewrite lower_ascii_fixes_digit, IH.
Qed.

Lemma lower_string_no_digit (s : string) :
  no_digit (lower_string s) = no_digit s.
Proof.
  induction s as [|c s IH]; simpl; [reflexivity|].
  now rewrite lower_ascii_digit, IH.
Qed.

Lemma lower_string_no_digit_ahead (s : string) :
  no_digit_ahead (lower_string s) = no_digit_ahead s.
Proof. destruct s; simpl; [reflexivity|now rewrite lower_ascii_digit]. Qed.

(** [lstrip] removes a digit-free prefix or nothing of it: what is left
    before the first digit is still digit-free. *)
Lemma lstrip_before_digits (pre ds rest : string) :
  no_digit pre = true -> all_digits ds = true -> ds <> "" ->
  exists pre', no_digit pre' = true /\
               lstrip (pre ++ ds ++ rest) = (pre' ++ ds ++ rest)%string.
Proof.
  intros Hpre Hds Hne.
  induction pre as [|c pre IH]; simpl.
  - exists "". split; [reflexivity|].
    destruct ds as [|d ds]; [congruence|]. simpl in *.
    apply andb_true_iff in Hds. destruct Hds as [Hd _].
    now rewrite (digit_not_space d Hd).
  - simpl in Hpre. apply andb_true_iff in Hpre. destruct Hpre as [Hc Hpre].
    destruct (is_space c).
    + exact (IH Hpre).
    + exists (String c pre). split; [|reflexivity].
      simpl. now rewrite Hc, Hpre.
Qed.

Lemma rstrip_cons (c : ascii) (w : string) :
  rstrip w <> "" -> rstrip (String c w) = String c (rstrip w).
Proof. simpl. destruct (rstrip w); [congruence|reflexivity]. Qed.

Lemma rstrip_after_digits (ds post : string) :
  all_digits ds = true -> ds <> "" ->
  rstrip (ds ++ post) = (ds ++ rstrip post)%string.
Proof.
  induction ds as [|c ds IH]; [congruence|]. intros Hd _.
  simpl in Hd. apply andb_true_iff in Hd. destruct Hd as [Hc Hd].
  destruct ds as [|d ds].
  - simpl. rewrite (digit_not_space c Hc). now destruct (rstrip post).
  - assert (Hne : String d ds <> "") by discriminate.
    specialize (IH Hd Hne).
    change (String c (String d ds) ++ post)%string
      with (String c (String d ds ++ post)).
    rewrite rstrip_cons; rewrite IH; [reflexivity|discriminate].
Qed.

Lemma rstrip_app (x w : string) :
  rstrip w <> "" -> rstrip (x ++ w) = (x ++ rstrip w)%string.
Proof.
  intros Hw. induction x as [|c x IH]; [reflexivity|].
  change (String c x ++ w)%string with (String c (x ++ w)).
  rewrite rstrip_cons; rewrite IH; [reflexivity|].
  destruct x; simpl; [assumption|discriminate].
Qed.

Lemma rstrip_no_digit_ahead (s : string) :
  no_digit_ahead s = true -> no_digit_ahead (rstrip s) = true.
Proof.
  destruct s as [|c s]; [reflexivity|]. simpl. intros H.
  destruct (rstrip s); [destruct (is_space c)|]; simpl; auto.
Qed.

Lemma lstrip_no_digit (s : string) :
  no_digit s = true -> no_digit (lstrip s) = true.
Proof.
  induction s as [|c s IH]; simpl; intros H; [reflexivity|].
  apply andb_true_iff in H. destruct H as [Hc H].
  destruct (is_space c); [auto|]. simpl. now rewrite Hc, H.
Qed.

Lemma rstrip_no_digit (s : string) :
  no_digit s = true -> no_digit (rstrip s) = true.
Proof.
  induction s as [|c s IH]; simpl; intros H; [reflexivity|].
  apply andb_true_iff in H. destruct H as [Hc H]. specialize (IH H).
  destruct (rstrip s) as [|d t].
  - destruct (is_space c); simpl; [reflexivity|now rewrite Hc].
  - simpl in *. now rewrite Hc, IH.
Qed.

(** X1: on an ASCII label whose first run of digits spells a number
    below 2^53, the key is that number; what precedes and follows the
    run, surrounding blanks and letter case included, does not count. *)
Theorem age_sort_key_first_number (pre ds post : string) :
  ascii_only pre = true -> ascii_only post = true ->
  (decimal ds < 2 ^ 53)%N ->
  no_digit pre = true -> all_digits ds = true -> ds <> "" ->
  no_digit_ahead post = true ->
  age_sort_key (Some (pre ++ ds ++ post)%string)
  = inject_Z (Z.of_N (decimal ds)).
Proof.
  intros _ _ _ Hpre Hds Hne Hpost.
  unfold age_sort_key, strip. cbn [astype_str].
  destruct (lstrip_before_digits pre ds post Hpre Hds Hne)
    as (pre' & Hpre' & ->).
  assert (Hr : rstrip (ds ++ post) <> "").
  { rewrite rstrip_after_digits by assumption.
    destruct ds; [congruence|discriminate]. }
  rewrite rstrip_app by assumption.
  rewrite rstrip_after_digits by assumption.
  rewrite !lower_string_app, (lower_string_digits ds Hds).
  rewrite scan_digits_skip by now rewrite lower_string_no_digit.
  rewrite scan_digits_run; auto.
  - simpl. destruct ds; [congruence|reflexivity].
  - rewrite lower_string_no_digit_ahead. now apply rstrip_no_digit_ahead.
Qed.

Lemma age_sort_key_first_number_witness :
  age_sort_key (Some ("<" ++ "5" ++ " years")%string)
  = inject_Z (Z.of_N (decimal "5")).
Proof.
  apply (age_sort_key_first_number "<" "5" " years");
    [reflexivity|reflexivity|reflexivity|reflexivity|reflexivity
    |discriminate|reflexivity].
Defined.

(** X2: an ASCII label without any digit, and a missing label, get the
    key 999. *)
Theorem age_sort_key_no_number (age_str : option string) :
  ascii_only (astype_str age_str) = true ->
  no_digit (astype_str age_str) = true -> age_sort_key age_str = 999.
Proof.
  intros _ H. unfold age_sort_key, strip.
  rewrite scan_digits_none; [reflexivity|].
  rewrite lower_string_no_digit.
  now apply rstrip_no_digit, lstrip_no_digit.
Qed.

Lemma age_sort_key_no_number_witness :
  age_sort_key None = 999 /\ age_sort_key (Some "All ages") = 999.
Proof.
  split; apply age_sort_key_no_number; reflexivity.
Defined.

(** ** The macro chart *)

Example plot_macro_sample :
  map (fun line => (fst line, map year (snd line)))
      (plot_macro_trend sample_macro ["Japan"; "India"])
  = [("India", [Some (whole 2018); Some (whole 2019)]);
     ("Japan", [Some (whole 2019); Some (whole 2020)])].
Proof. reflexivity. Qed.

Lemma string_leb_trans (a b c : string) :
  String.leb a b = true -> String.leb b c = true -> String.leb a c = true.
Proof.
  unfold String.leb.
  revert b c; induction a as [|x a IH]; intros [|y b] [|z c]; simpl;
    try congruence.
  unfold Ascii.compare.
  destruct (N.compare_spec (N_of_ascii x) (N_of_ascii y));
    destruct (N.compare_spec (N_of_ascii y) (N_of_ascii z));
    destruct (N.compare_spec (N_of_ascii x) (N_of_ascii z));
    intros Hab Hbc; try reflexivity; try discriminate;
    try (exfalso; lia); eauto.
Qed.

Lemma text_asc_total (a b : option string) :
  text_asc a b = true \/ text_asc b a = true.
Proof. destruct a, b; simpl; auto. apply String.leb_total. Qed.

Lemma text_asc_trans (a b c : option string) :
  text_asc a b = true -> text_asc b c = true -> text_asc a c = true.
Proof.
  destruct a, b, c; simpl; auto; try discriminate. apply string_leb_trans.
Qed.

Lemma text_asc_antisym (a b : option string) :
  text_asc a b = true -> text_asc b a = true -> a = b.
Proof.
  destruct a, b; simpl; auto; try discriminate.
  intros H1 H2. f_equal. now apply String.leb_antisym.
Qed.

Lemma year_asc_total (a b : option Year) :
  year_asc a b = true \/ year_asc b a = true.
Proof. destruct a, b; simpl; auto. apply year_leb_total. Qed.

Lemma year_asc_trans (a b c : option Year) :
  year_asc a b = true -> year_asc b c = true -> year_asc a c = true.
Proof.
  destruct a, b, c; simpl; auto; try discriminate.
  apply year_leb_trans.
Qed.

Lemma macro_leb_total (a b : Observation) :
  macro_leb a b = true \/ macro_leb b a = true.
Proof.
  unfold macro_leb, text_eqb.
  destruct (text_eq_dec (location a) (location b)) as [E|N],
           (text_eq_dec (location b) (location a)) as [E'|N'];
    try congruence.
  - apply year_asc_total.
  - apply text_asc_total.
Qed.

Lemma macro_leb_trans (a b c : Observation) :
  macro_leb a b = true -> macro_leb b c = true -> macro_leb a c = true.
Proof.
  unfold macro_leb, text_eqb.
  destruct (text_eq_dec (location a) (location b)) as [E1|N1],
           (text_eq_dec (location b) (location c)) as [E2|N2],
           (text_eq_dec (location a) (location c)) as [E3|N3];
    try congruence.
  - apply year_asc_trans.
  - intros H1 H2. exfalso. apply N1.
    apply text_asc_antisym; [assumption|]. now rewrite E3.
  - apply text_asc_trans.
Qed.

Lemma StronglySorted_filter {A : Type} (R : A -> A -> Prop) (f : A -> bool)
    (l : list A) :
  StronglySorted R l -> StronglySorted R (filter f l).
Proof.
  induction 1 as [|x l Hs IH Hf]; simpl; [constructor|].
  destruct (f x); [|assumption].
  constructor; [assumption|].
  rewrite Forall_forall in *. intros z Hz.
  apply filter_In in Hz. apply Hf. tauto.
Qed.

(** The rows of [sub]: the rows of a requested location with a year and a
    value. *)
Lemma in_macro_sub (df_macro : list Observation) (locations : list string)
    (r : Observation) :
  In r (macro_sub df_macro locations) <->
  In r df_macro /\ isin (location r) locations = true /\
  (exists y, year r = Some y) /\ (exists v, value r = Some v).
Proof.
  unfold macro_sub.
  rewrite (argsort_In macro_leb), !filter_In, andb_true_iff, !notna_Some.
  tauto.
Qed.

Lemma isin_In (c : option string) (names : list string) :
  isin c names = true <-> exists s, c = Some s /\ In s names.
Proof.
  destruct c as [s|]; simpl.
  - rewrite existsb_exists. split.
    + intros (x & Hx & He). apply String.eqb_eq in He. subst. eauto.
    + intros (x & [= <-] & Hx). exists s. split; [assumption|].
      apply String.eqb_refl.
  - split; [discriminate|]. intros (s & H & _). discriminate.
Qed.

Lemma in_groupby_location (sub : list Observation) (loc : string)
    (g : list Observation) :
  In (loc, g) (groupby_location sub) <->
  In (Some loc) (map location sub) /\
  g = filter (fun r => text_eqb (location r) (Some loc)) sub.
Proof.
  unfold groupby_location.
  rewrite in_map_iff. split.
  - intros (k & [= <- <-] & Hk).
    apply (proj1 (argsort_In String.leb _ _)) in Hk.
    apply nodup_In, in_dropna in Hk. auto.
  - intros [Hin ->]. exists loc. split; [reflexivity|].
    apply (proj2 (argsort_In String.leb _ _)).
    now apply nodup_In, in_dropna.
Qed.

(** X3: every line of the macro chart is labelled with a requested
    location, is not empty, and holds exactly the rows of that location
    that have a year and a value. *)
Theorem macro_line_rows (df_macro : list Observation)
    (locations : list string) (loc : string) (g : list Observation) :
  In (loc, g) (plot_macro_trend df_macro locations) ->
  In loc locations /\ g <> [] /\
  forall r, In r g <->
            In r df_macro /\ location r = Some loc /\
            (exists y, year r = Some y) /\ (exists v, value r = Some v).
Proof.
  unfold plot_macro_trend. intros H.
  apply in_groupby_location in H. destruct H as [Hloc ->].
  apply in_map_iff in Hloc. destruct Hloc as (r0 & Hl0 & Hr0).
  pose proof Hr0 as Hsub0.
  apply in_macro_sub in Hr0. destruct Hr0 as (_ & Hisin & _).
  rewrite Hl0 in Hisin. apply isin_In in Hisin.
  destruct Hisin as (s & [= <-] & Hs).
  split; [assumption|]. split.
  - intros Hnil.
    assert (Hin : In r0 (filter (fun r => text_eqb (location r) (Some loc))
                                (macro_sub df_macro locations))).
    { apply filter_In. split; [assumption|]. now apply text_eqb_eq. }
    rewrite Hnil in Hin. destruct Hin.
  - intros r. rewrite filter_In, text_eqb_eq, in_macro_sub. split.
    + tauto.
    + intros (Hr & Hl & Hy & Hv). repeat split; auto.
      rewrite Hl. apply isin_In. eauto.
Qed.

Lemma macro_line_rows_witness :
  In "India" ["Japan"; "India"] /\
  map year [obs "India" "Both" "Percent" 2018 4;
            obs "India" "Both" "Percent" 2019 4] <> [] /\
  In (obs "India" "Both" "Percent" 2019 4) sample_macro.
Proof.
  destruct (macro_line_rows sample_macro ["Japan"; "India"] "India"
              [obs "India" "Both" "Percent" 2018 4;
               obs "India" "Both" "Percent" 2019 4])
    as (H1 & H2 & H3).
  - left. reflexivity.
  - split; [exact H1|]. split; [discriminate|].
    apply H3. right. left. reflexivity.
Defined.

(** X4: along every line of the macro chart the years never decrease. *)
Theorem macro_line_years_ascend (df_macro : list Observation)
    (locations : list string) (loc : string) (g : list Observation) :
  In (loc, g) (plot_macro_trend df_macro locations) ->
  StronglySorted
    (fun a b => exists x y, year a = Some x /\ year b = Some y /\ year_le x y)
    g.
Proof.
  unfold plot_macro_trend. intros H.
  apply in_groupby_location in H. destruct H as [_ ->].
  apply (StronglySorted_weaken_in
           (fun a b => macro_leb a b = true)).
  - intros a b Ha Hb Hab.
    apply filter_In in Ha, Hb.
    destruct Ha as [Ha Hla], Hb as [Hb Hlb].
    apply text_eqb_eq in Hla, Hlb.
    apply in_macro_sub in Ha, Hb.
    destruct Ha as (_ & _ & [x Hx] & _), Hb as (_ & _ & [y Hy] & _).
    exists x, y. repeat split; auto.
    unfold macro_leb in Hab. rewrite Hla, Hlb, Hx, Hy in Hab.
    rewrite (proj2 (text_eqb_eq _ _) eq_refl) in Hab.
    simpl in Hab. now apply year_leb_le.
  - apply StronglySorted_filter.
    apply (argsort_sorted macro_leb macro_leb_total macro_leb_trans).
Qed.

Lemma macro_line_years_ascend_witness :
  StronglySorted
    (fun a b => exists x y, year a = Some x /\ year b = Some y /\ year_le x y)
    [obs "Japan" "Both" "Percent" 2019 2; obs "Japan" "Both" "Percent" 2020 3].
Proof.
  apply (macro_line_years_ascend sample_macro ["Japan"; "India"] "Japan").
  right. left. reflexivity.
Defined.

Lemma leb_ne_ltb (s t : string) :
  String.leb s t = true -> s <> t -> String.ltb s t = true.
Proof.
  unfold String.leb, String.ltb. intros Hle Hne.
  destruct (String.compare s t) eqn:E; [|reflexivity|discriminate].
  apply String.compare_eq_iff in E. contradiction.
Qed.

Lemma sorted_NoDup_strict (l : list string) :
  NoDup l ->
  StronglySorted (fun a b => String.leb a b = true) l ->
  StronglySorted (fun a b => String.ltb a b = true) l.
Proof.
  intros Hnd Hs. induction Hs as [|x l Hs IH Hf]; [constructor|].
  inversion Hnd as [|? ? Hx Hl]; subst.
  constructor; [auto|].
  rewrite Forall_forall in *. intros z Hz.
  apply leb_ne_ltb; [auto|]. intros ->. contradiction.
Qed.

(** X5: the lines of the macro chart come in ascending order of their
    labels, one line per label. *)
Theorem macro_lines_ascend (df_macro : list Observation)
    (locations : list string) :
  StronglySorted (fun a b => String.ltb a b = true)
                 (map fst (plot_macro_trend df_macro locations)).
Proof.
  unfold plot_macro_trend, groupby_location.
  rewrite map_map. simpl. rewrite map_id.
  apply sorted_NoDup_strict.
  - eapply Permutation_NoDup; [apply (argsort_perm String.leb)|].
    apply NoDup_nodup.
  - apply (argsort_sorted String.leb String.leb_total string_leb_trans).
Qed.

Lemma filter_disjoint_perm {A : Type} (p q : A -> bool) (l : list A) :
  (forall x, p x = true -> q x = false) ->
  Permutation (filter p l ++ filter q l) (filter (fun x => p x || q x) l).
Proof.
  intros Hpq. induction l as [|x l IH]; simpl; [constructor|].
  destruct (p x) eqn:Hp.
  - rewrite (Hpq x Hp). simpl. now constructor.
  - destruct (q x); simpl; [|assumption].
    symmetry. apply Permutation_cons_app. now symmetry.
Qed.

(** Gathering the groups of distinct keys gives back the rows that have
    one of the keys. *)
Lemma groups_perm (sub : list Observation) (keys : list string) :
  NoDup keys ->
  Permutation
    (List.concat (map (fun k => filter (fun r => text_eqb (location r) (Some k))
                                  sub) keys))
    (filter (fun r => existsb (fun k => text_eqb (location r) (Some k)) keys)
            sub).
Proof.
  induction 1 as [|k ks Hk Hnd IH]; simpl.
  - now rewrite filter_none.
  - etransitivity; [apply Permutation_app_head, IH|].
    apply (filter_disjoint_perm
             (fun r => text_eqb (location r) (Some k))
             (fun r => existsb (fun k' => text_eqb (location r) (Some k')) ks)).
    intros r Hr. apply text_eqb_eq in Hr.
    destruct (existsb _ ks) eqn:E; [|reflexivity].
    apply existsb_exists in E. destruct E as (k' & Hk' & He).
    apply text_eqb_eq in He. rewrite Hr in He. injection He as <-.
    contradiction.
Qed.

(** X6: the lines of the macro chart hold, each once, the rows of the
    requested locations that have a year and a value: no such row is left
    out and none is drawn twice. *)
Theorem macro_rows_conserved (df_macro : list Observation)
    (locations : list string) :
  Permutation
    (List.concat (map snd (plot_macro_trend df_macro locations)))
    (filter (fun r => notna (year r) && notna (value r))
       (filter (fun r => isin (location r) locations) df_macro)).
Proof.
  unfold plot_macro_trend, groupby_location.
  rewrite map_map. simpl.
  etransitivity; [|symmetry; apply (argsort_perm macro_leb)].
  fold (macro_sub df_macro locations).
  etransitivity.
  - apply groups_perm.
    eapply Permutation_NoDup; [apply (argsort_perm String.leb)|].
    apply NoDup_nodup.
  - rewrite filter_id_on; [reflexivity|].
    intros r Hr. pose proof Hr as Hsub.
    apply in_macro_sub in Hr. destruct Hr as (_ & Hisin & _).
    apply isin_In in Hisin. destruct Hisin as (s & Hs & _).
    apply existsb_exists. exists s. split.
    + apply (proj2 (argsort_In String.leb _ _)).
      apply nodup_In, in_dropna. rewrite <- Hs. now apply in_map.
    + now apply text_eqb_eq.
Qed.

(** ** More on the shortlist *)

(** X7: the shortlist has 15 records, or all of them when the joined set
    has fewer, and no record left out has a larger priority index than a
    record of the shortlist. *)
Theorem top_dominates (quick : Quicksort) (need_all : list Observation)
    (psy : list CapacityRecord) (y : Z) :
  sorts quick ->
  List.length (top quick need_all psy y)
  = Nat.min 15 (List.length (plot_actionable need_all psy y)) /\
  exists rest,
    Permutation (plot_actionable need_all psy y)
                (top quick need_all psy y ++ rest) /\
    forall a b, In a (top quick need_all psy y) -> In b rest ->
                priority_ge a b.
Proof.
  intros Hquick. unfold top, head.
  destruct (ranking_of_frame quick (plot_actionable need_all psy y) Hquick
              (plot_actionable_priority need_all psy y))
    as (ranked & -> & Hperm & Hsorted).
  split.
  - rewrite length_firstn. now rewrite <- (Permutation_length Hperm).
  - exists (skipn 15 ranked).
    rewrite firstn_skipn. split; [exact Hperm|].
    apply StronglySorted_app_inv. now rewrite firstn_skipn.
Qed.

Lemma top_dominates_witness :
  List.length (top stable_sort sample_need sample_psy 2020) = 2%nat /\
  exists rest,
    Permutation (plot_actionable sample_need sample_psy 2020)
                (top stable_sort sample_need sample_psy 2020 ++ rest) /\
    forall a b, In a (top stable_sort sample_need sample_psy 2020) ->
                In b rest -> priority_ge a b.
Proof.
  apply (top_dominates stable_sort sample_need sample_psy 2020).
  apply stable_sort_sorts.
Defined.

(** ** More on the unit normalizer *)

(** X8: whatever it decides, the normalizer keeps the rows in number and
    order, leaves every label and the year of a row alone, and keeps a
    missing value missing. *)
Theorem load_ihme_keeps_rows (df : IhmeFrame) :
  Forall2
    (fun i o =>
       location o = location i /\ sex o = sex i /\ age o = age i /\
       cause o = cause i /\ measure o = measure i /\ metric o = metric i /\
       year o = year i /\ notna (value o) = notna (value i))
    (rows df) (rows (load_ihme df)).
Proof.
  unfold load_ihme.
  destruct (has_metric df);
    [destruct (is_percent df && le1 (series_max (map value (rows df))))|].
  - simpl. apply Forall2_map_r. intros r. simpl.
    repeat split. now destruct (value r).
  - induction (rows df); constructor; auto. repeat split.
  - induction (rows df); constructor; auto. repeat split.
Qed.

(** X9: when the normalizer changes a frame, no value of its output
    exceeds 100. *)
Theorem load_ihme_rescaled_bound (df : IhmeFrame) (v : Q) :
  load_ihme df <> df ->
  In (Some v) (map value (rows (load_ihme df))) -> v <= 100.
Proof.
  unfold load_ihme.
  destruct (has_metric df); [|congruence].
  destruct (is_percent df && le1 (series_max (map value (rows df)))) eqn:E;
    [|congruence].
  intros _ Hv. simpl in Hv. rewrite map_map in Hv. simpl in Hv.
  apply in_map_iff in Hv. destruct Hv as (r & Hr & Hin).
  apply andb_true_iff in E. destruct E as [_ Hmax].
  apply le1_series_max in Hmax. destruct Hmax as [_ Hle].
  destruct (value r) as [w|] eqn:Hw; [|discriminate].
  simpl in Hr. injection Hr as <-.
  assert (Hw1 : w <= 1).
  { apply Hle. apply in_map_iff. exists r. auto. }
  setoid_replace 100 with (1 * 100) by reflexivity.
  apply Qmult_le_compat_r; [assumption|discriminate].
Qed.

Lemma load_ihme_rescaled_bound_witness : (5 # 100) * 100 <= 100.
Proof.
  apply (load_ihme_rescaled_bound sample_fractions).
  - vm_compute. congruence.
  - vm_compute. right. left. reflexivity.
Defined.

(** X10: one value above 1 anywhere in the frame keeps the whole frame as
    it is, rows labelled as percent included. *)
Theorem load_ihme_unchanged_above_one (df : IhmeFrame) (v : Q) :
  In (Some v) (map value (rows df)) -> 1 < v -> load_ihme df = df.
Proof.
  intros Hv Hlt. unfold load_ihme.
  destruct (has_metric df); [|reflexivity].
  destruct (le1 (series_max (map value (rows df)))) eqn:E.
  - apply le1_series_max in E. destruct E as [_ Hle].
    exfalso. exact (Qlt_not_le _ _ Hlt (Hle v Hv)).
  - now rewrite andb_false_r.
Qed.

Lemma load_ihme_unchanged_above_one_witness :
  load_ihme (mkIhmeFrame true false false sample_need)
  = mkIhmeFrame true false false sample_need.
Proof.
  apply (load_ihme_unchanged_above_one _ 10).
  - left. reflexivity.
  - reflexivity.
Defined.

(** ** The reconciler and the order of the rows *)

Lemma ascending_unique (l1 l2 : list Z) :
  StronglySorted Z.lt l1 -> StronglySorted Z.lt l2 ->
  (forall x, In x l1 <-> In x l2) -> l1 = l2.
Proof.
  intros H1; revert l2; induction H1 as [|a l1 Hs1 IH Hf1];
    intros l2 H2 Heq.
  - destruct l2 as [|b l2]; [reflexivity|].
    exfalso. apply (proj2 (Heq b)). now left.
  - destruct H2 as [|b l2 Hs2 Hf2].
    + exfalso. apply (proj1 (Heq a)). now left.
    + rewrite Forall_forall in Hf1, Hf2.
      assert (Hab : a = b).
      { destruct (proj1 (Heq a) (or_introl eq_refl)) as [Hb|Hb];
          [congruence|].
        destruct (proj2 (Heq b) (or_introl eq_refl)) as [Ha|Ha];
          [congruence|].
        specialize (Hf1 b Ha). specialize (Hf2 a Hb). lia. }
      subst b. f_equal. apply IH; [assumption|].
      intros x. split; intros Hx.
      * destruct (proj1 (Heq x) (or_intror Hx)) as [<-|H]; [|assumption].
        specialize (Hf1 a Hx). lia.
      * destruct (proj2 (Heq x) (or_intror Hx)) as [<-|H]; [|assumption].
        specialize (Hf2 a Hx). lia.
Qed.

(** Sorting a set gives a list that depends on its elements only. *)
Lemma sorted_same_elements (s1 s2 : list Z) :
  NoDup s1 -> NoDup s2 -> (forall x, In x s1 <-> In x s2) ->
  sorted s1 = sorted s2.
Proof.
  intros H1 H2 Heq. apply ascending_unique.
  - now apply sorted_ascending.
  - now apply sorted_ascending.
  - intros x. now rewrite !sorted_In.
Qed.

Lemma dropna_perm {A : Type} (l1 l2 : list (option A)) :
  Permutation l1 l2 -> Permutation (dropna l1) (dropna l2).
Proof.
  induction 1 as [|x l1 l2 H IH|x z l|l1 l2 l3 H12 IH12 H23 IH23]; simpl.
  - constructor.
  - destruct x; [now constructor|assumption].
  - destruct x, z; try reflexivity. constructor.
  - etransitivity; eauto.
Qed.

Lemma filter_perm {A : Type} (f : A -> bool) (l1 l2 : list A) :
  Permutation l1 l2 -> Permutation (filter f l1) (filter f l2).
Proof.
  induction 1 as [|x l1 l2 H IH|x z l|l1 l2 l3 H12 IH12 H23 IH23]; simpl.
  - constructor.
  - destruct (f x); [now constructor|assumption].
  - destruct (f x), (f z); try reflexivity. constructor.
  - etransitivity; eauto.
Qed.

Lemma nodup_length_perm (l1 l2 : list string) :
  Permutation l1 l2 ->
  List.length (nodup string_dec l1) = List.length (nodup string_dec l2).
Proof.
  intros H. apply Permutation_length.
  apply NoDup_Permutation; try apply NoDup_nodup.
  intros x. rewrite !nodup_In.
  split; apply Permutation_in; [assumption|now symmetry].
Qed.

Lemma coverage_perm (psy psy' : list CapacityRecord) (a : Year) :
  Permutation psy psy' -> coverage psy a = coverage psy' a.
Proof.
  intros H. unfold coverage, with_capacity.
  apply nodup_length_perm, dropna_perm, Permutation_map.
  now do 2 apply filter_perm.
Qed.

Lemma year_set_perm (c1 c2 : list (option Year)) :
  Permutation c1 c2 -> sorted (year_set c1) = sorted (year_set c2).
Proof.
  intros H. apply sorted_same_elements; try apply year_set_NoDup.
  intros x. rewrite !year_set_In.
  split; intros (a & Ha & Hx); exists a; (split; [|assumption]).
  - exact (Permutation_in _ H Ha).
  - exact (Permutation_in _ (Permutation_sym H) Ha).
Qed.

Lemma year_leb_antisym (a b : Year) :
  year_leb a b = true -> year_leb b a = true -> a = b.
Proof.
  destruct a as [x|[|]], b as [z|[|]]; simpl; try discriminate; auto.
  rewrite !Qle_bool_iff. intros H1 H2. f_equal.
  apply Qc_is_canon. now apply Qle_antisym.
Qed.

(** A duplicate-free list has one arrangement in ascending order. *)
Lemma ascending_years_unique (l1 l2 : list Year) :
  StronglySorted (fun a b => year_leb a b = true) l1 ->
  StronglySorted (fun a b => year_leb a b = true) l2 ->
  NoDup l1 -> NoDup l2 ->
  (forall x, In x l1 <-> In x l2) -> l1 = l2.
Proof.
  intros H1; revert l2; induction H1 as [|a l1 Hs1 IH Hf1];
    intros l2 H2 Hn1 Hn2 Heq.
  - destruct l2 as [|b l2]; [reflexivity|].
    exfalso. apply (proj2 (Heq b)). now left.
  - destruct H2 as [|b l2 Hs2 Hf2].
    + exfalso. apply (proj1 (Heq a)). now left.
    + rewrite Forall_forall in Hf1, Hf2.
      inversion Hn1 as [|? ? Ha1 Hn1']; subst.
      inversion Hn2 as [|? ? Hb2 Hn2']; subst.
      assert (Hab : a = b).
      { destruct (proj1 (Heq a) (or_introl eq_refl)) as [Hb|Hb];
          [congruence|].
        destruct (proj2 (Heq b) (or_introl eq_refl)) as [Ha|Ha];
          [congruence|].
        apply year_leb_antisym; auto. }
      subst b. f_equal. apply IH; try assumption.
      intros x. split; intros Hx.
      * destruct (proj1 (Heq x) (or_intror Hx)) as [<-|H];
          [contradiction|assumption].
      * destruct (proj2 (Heq x) (or_intror Hx)) as [<-|H];
          [contradiction|assumption].
Qed.

Lemma capacity_years_perm (psy psy' : list CapacityRecord) :
  Permutation psy psy' ->
  argsort year_leb (capacity_years psy)
  = argsort year_leb (capacity_years psy').
Proof.
  intros H. apply ascending_years_unique.
  - apply (argsort_sorted year_leb year_leb_total year_leb_trans).
  - apply (argsort_sorted year_leb year_leb_total year_leb_trans).
  - eapply Permutation_NoDup; [apply argsort_perm|apply NoDup_nodup].
  - eapply Permutation_NoDup; [apply argsort_perm|apply NoDup_nodup].
  - intros x.
    rewrite (argsort_In year_leb (capacity_years psy) x).
    rewrite (argsort_In year_leb (capacity_years psy') x).
    rewrite !in_capacity_years. unfold is_capacity_year.
    split; intros (c & v & Hc & Hrest); exists c, v; (split; [|assumption]).
    + exact (Permutation_in _ H Hc).
    + exact (Permutation_in _ (Permutation_sym H) Hc).
Qed.

Lemma comprehension_ext (ny ny' : list Z) (index : list Year) :
  (forall y, In y ny <-> In y ny') ->
  comprehension ny index = comprehension ny' index.
Proof.
  intros Heq. induction index as [|a index IH]; simpl; [reflexivity|].
  destruct (int_of a) as [e|y]; [reflexivity|]. rewrite IH.
  destruct (comprehension ny' index) as [e|ys]; [reflexivity|].
  replace (existsb (Z.eqb y) ny') with (existsb (Z.eqb y) ny);
    [reflexivity|].
  apply eq_true_iff_eq. rewrite !existsb_Zeqb. apply Heq.
Qed.

(** X11: the reconciler does not depend on the order of the rows of
    either file: the year it returns, or the error it raises with both
    previews, is the same after any reshuffling of the rows. *)
Theorem choose_actionable_year_row_order (quick : Quicksort)
    (need_all need_all' : list Observation)
    (psy psy' : list CapacityRecord) :
  Permutation need_all need_all' -> Permutation psy psy' ->
  choose_actionable_year quick need_all psy
  = choose_actionable_year quick need_all' psy'.
Proof.
  intros Hn Hp.
  assert (Hneed : sorted (need_years need_all) = sorted (need_years need_all'))
    by (apply year_set_perm, Permutation_map, Hn).
  assert (Hall : sorted (year_set (map psy_year psy))
                 = sorted (year_set (map psy_year psy')))
    by (apply year_set_perm, Permutation_map, Hp).
  assert (Hcounts : psy_counts quick psy = psy_counts quick psy').
  { unfold psy_counts, nunique_by_year.
    rewrite (capacity_years_perm psy psy' Hp). f_equal.
    apply map_ext. intros z. f_equal. now apply coverage_perm. }
  assert (Hcand : candidates quick need_all psy
                  = candidates quick need_all' psy').
  { unfold candidates. rewrite Hcounts. apply comprehension_ext.
    intros z.
    rewrite <- (sorted_In (need_years need_all) z).
    rewrite <- (sorted_In (need_years need_all') z).
    now rewrite Hneed. }
  unfold choose_actionable_year. now rewrite Hcand, Hneed, Hall.
Qed.

Lemma choose_actionable_year_row_order_witness :
  choose_actionable_year stable_sort sample_need sample_psy
  = choose_actionable_year stable_sort (rev sample_need) (rev sample_psy).
Proof.
  apply choose_actionable_year_row_order; apply Permutation_rev.
Defined.

(** ** The thresholds of the scatter chart *)

Example quantile_quarter :
  option_map Qred (quantile (1 # 4) [Some 4; Some 1; None; Some 3; Some 2])
  = Some (7 # 4).
Proof. reflexivity. Qed.

Lemma sorted_nth {A : Type} (R : A -> A -> Prop) (l : list A) :
  StronglySorted R l ->
  forall i j d e, (i < j)%nat -> (j < List.length l)%nat ->
                  R (nth i l d) (nth j l e).
Proof.
  induction 1 as [|x l Hs IH Hf]; simpl; intros i j d e Hij Hj; [lia|].
  destruct j as [|j]; [lia|].
  destruct i as [|i].
  - rewrite Forall_forall in Hf. apply Hf, nth_In. lia.
  - apply IH; lia.
Qed.

Lemma scale_le (q m : Q) :
  0 <= q -> q <= 1 -> 0 <= m -> 0 <= q * m /\ q * m <= m.
Proof. intros. split; nra. Qed.

Lemma lerp_between (a b f : Q) :
  a <= b -> 0 <= f -> f <= 1 ->
  a <= a + (b - a) * f /\ a + (b - a) * f <= b.
Proof. intros. split; nra. Qed.

Lemma quantile_lerp (q : Q) (col : list (option Q)) (t : Q) :
  0 <= q -> q <= 1 -> quantile q col = Some t ->
  exists a b, In (Some a) col /\ In (Some b) col /\ a <= t /\ t <= b.
Proof.
  intros Hq0 Hq1. unfold quantile.
  pose proof (argsort_sorted Qle_bool Qle_bool_total Qle_bool_trans
                (dropna col)) as Hs.
  assert (Hin : forall x, In x (argsort Qle_bool (dropna col)) ->
                          In (Some x) col).
  { intros x Hx. apply in_dropna.
    exact (proj1 (argsort_In Qle_bool _ _) Hx). }
  destruct (argsort Qle_bool (dropna col)) as [|v0 v'] eqn:Ev;
    [discriminate|].
  set (v := v0 :: v') in *.
  set (n := List.length v).
  assert (Hn : (1 <= n)%nat) by (unfold n, v; simpl; lia).
  set (pos := q * inject_Z (Z.of_nat n - 1)).
  set (lo := Qfloor pos).
  intros [= <-].
  assert (Hm : 0 <= inject_Z (Z.of_nat n - 1)).
  { rewrite <- (Zle_Qle 0). lia. }
  destruct (scale_le q _ Hq0 Hq1 Hm) as [Hpos0 Hpos1]. fold pos in Hpos0, Hpos1.
  assert (Hlo0 : (0 <= lo)%Z).
  { unfold lo. rewrite <- (Qfloor_Z 0). now apply Qfloor_resp_le. }
  assert (Hlo1 : (lo <= Z.of_nat n - 1)%Z).
  { unfold lo. rewrite <- (Qfloor_Z (Z.of_nat n - 1)).
    now apply Qfloor_resp_le. }
  pose proof (Qfloor_le pos) as Hf0. fold lo in Hf0.
  pose proof (Qlt_floor pos) as Hf1. fold lo in Hf1.
  rewrite inject_Z_plus in Hf1.
  set (a := nth (Z.to_nat lo) v v0).
  change (exists a0 b0,
             In (Some a0) col /\ In (Some b0) col /\
             a0 <= a + (nth (Z.to_nat (lo + 1)) v a - a) * (pos - inject_Z lo)
             /\ a + (nth (Z.to_nat (lo + 1)) v a - a) * (pos - inject_Z lo)
                <= b0).
  assert (Ha : In a v) by (apply nth_In; fold n; lia).
  destruct (Nat.lt_ge_cases (Z.to_nat (lo + 1)) n) as [Hb|Hb].
  - set (b := nth (Z.to_nat (lo + 1)) v a).
    assert (Hbin : In b v) by (apply nth_In; fold n; lia).
    assert (Hab : a <= b).
    { apply Qle_bool_iff.
      apply (sorted_nth (fun x z => Qle_bool x z = true) v Hs);
        [lia|fold n; lia]. }
    change (inject_Z 1) with 1 in Hf1.
    assert (Hfr0 : 0 <= pos - inject_Z lo) by lra.
    assert (Hfr1 : pos - inject_Z lo <= 1) by lra.
    destruct (lerp_between a b _ Hab Hfr0 Hfr1).
    exists a, b. repeat split; auto.
  - rewrite (nth_overflow v a) by (fold n; lia).
    exists a, a. repeat split; auto.
    + setoid_replace (a + (a - a) * (pos - inject_Z lo)) with a by ring.
      apply Qle_refl.
    + setoid_replace (a + (a - a) * (pos - inject_Z lo)) with a by ring.
      apply Qle_refl.
Qed.

(** X12: a quantile of order between 0 and 1 lies between two values of
    the column; in particular it is within their range. *)
Theorem quantile_between (q : Q) (col : list (option Q)) (t : Q) :
  0 <= q -> q <= 1 -> quantile q col = Some t ->
  exists a b, In (Some a) col /\ In (Some b) col /\ a <= t /\ t <= b.
Proof. apply quantile_lerp. Qed.

Lemma quantile_between_witness :
  exists a b,
    In (Some a) [Some 4; Some 1; None; Some 3; Some 2] /\
    In (Some b) [Some 4; Some 1; None; Some 3; Some 2] /\
    a <= 1 + (2 - 1) * ((1 # 4) * 3 - 0) /\
    1 + (2 - 1) * ((1 # 4) * 3 - 0) <= b.
Proof.
  apply (quantile_between (1 # 4)).
  - discriminate.
  - discriminate.
  - reflexivity.
Defined.

Lemma quantile_None (q : Q) (col : list (option Q)) :
  quantile q col = None <-> dropna col = [].
Proof.
  unfold quantile.
  pose proof (argsort_perm Qle_bool (dropna col)) as Hp.
  destruct (argsort Qle_bool (dropna col)) as [|v0 v'].
  - apply Permutation_sym, Permutation_nil in Hp. tauto.
  - split; [discriminate|]. intros E. rewrite E in Hp.
    apply Permutation_nil in Hp. discriminate.
Qed.

Lemma dropna_all_present {A B : Type} (f : A -> option B) (l : list A) :
  (forall p, In p l -> exists v, f p = Some v) ->
  (dropna (map f l) = [] <-> l = []).
Proof.
  destruct l as [|p l]; simpl; [tauto|]. intros H.
  destruct (H p (or_introl eq_refl)) as [v ->].
  split; discriminate.
Qed.

(** X13: the two dashed thresholds of the scatter chart exist exactly
    when the joined set is not empty, and the capacity threshold is then
    above 0. *)
Theorem thresholds_of_joined_set (need_all : list Observation)
    (psy : list CapacityRecord) (y : Z) :
  (x_thr need_all psy y = None <-> plot_actionable need_all psy y = []) /\
  (y_thr need_all psy y = None <-> plot_actionable need_all psy y = []) /\
  (forall t, x_thr need_all psy y = Some t -> 0 < t).
Proof.
  assert (Hempty : plot_actionable need_all psy y = [] <->
                   merged_pairs need_all psy y = []).
  { unfold plot_actionable.
    destruct (merged_pairs need_all psy y); simpl; split;
      congruence. }
  split; [|split].
  - unfold x_thr. rewrite quantile_None, Hempty.
    apply dropna_all_present. intros p Hp. apply in_merged_pairs in Hp.
    destruct Hp as (_ & _ & _ & _ & _ & _ & (c & Hc & _)). eauto.
  - unfold y_thr. rewrite quantile_None, Hempty.
    apply dropna_all_present. intros p Hp. apply in_merged_pairs in Hp.
    tauto.
  - intros t Ht. unfold x_thr in Ht.
    apply quantile_lerp in Ht; [|discriminate|discriminate].
    destruct Ht as (a & _ & Ha & _ & Hat & _).
    apply in_map_iff in Ha. destruct Ha as (p & Hpa & Hp).
    apply in_merged_pairs in Hp.
    destruct Hp as (_ & _ & _ & _ & _ & _ & (c & Hc & Hpos)).
    rewrite Hc in Hpa. injection Hpa as ->.
    now apply Qlt_le_trans with a.
Qed.

(** ** The micro chart *)

Lemma in_unique (col : list (option string)) (x : option string) :
  In x (unique col) <-> In x col.
Proof.
  induction col as [|c col IH]; simpl; [tauto|].
  rewrite filter_In, IH, negb_true_iff. split.
  - tauto.
  - intros [H|H]; [auto|].
    destruct (text_eq_dec c x) as [E|N]; [auto|]. right. split; [assumption|].
    destruct (text_eqb c x) eqn:E; [|reflexivity].
    apply text_eqb_eq in E. contradiction.
Qed.

Lemma age_leb_total (a b : option string) :
  age_leb a b = true \/ age_leb b a = true.
Proof. apply Qle_bool_total. Qed.

Lemma age_leb_trans (a b c : option string) :
  age_leb a b = true -> age_leb b c = true -> age_leb a c = true.
Proof. apply Qle_bool_trans. Qed.

Lemma micro_leb_total (cats : list (option string)) (a b : Observation) :
  micro_leb cats a b = true \/ micro_leb cats b a = true.
Proof.
  unfold micro_leb, text_eqb.
  destruct (text_eq_dec (location a) (location b)),
           (text_eq_dec (location b) (location a)); try congruence.
  - destruct (text_eq_dec (sex a) (sex b)),
             (text_eq_dec (sex b) (sex a)); try congruence.
    + rewrite !Nat.leb_le. lia.
    + apply text_asc_total.
  - apply text_asc_total.
Qed.

Lemma micro_leb_trans (cats : list (option string)) (a b c : Observation) :
  micro_leb cats a b = true -> micro_leb cats b c = true ->
  micro_leb cats a c = true.
Proof.
  unfold micro_leb, text_eqb.
  destruct (text_eq_dec (location a) (location b)) as [L1|L1],
           (text_eq_dec (location b) (location c)) as [L2|L2],
           (text_eq_dec (location a) (location c)) as [L3|L3];
    try congruence.
  - destruct (text_eq_dec (sex a) (sex b)) as [S1|S1],
             (text_eq_dec (sex b) (sex c)) as [S2|S2],
             (text_eq_dec (sex a) (sex c)) as [S3|S3];
      try congruence.
    + rewrite !Nat.leb_le. lia.
    + intros H1 H2. exfalso. apply S1.
      apply text_asc_antisym; [assumption|]. now rewrite S3.
    + apply text_asc_trans.
  - intros H1 H2. exfalso. apply L1.
    apply text_asc_antisym; [assumption|]. now rewrite L3.
  - apply text_asc_trans.
Qed.

(** Among categories sorted by a key, a smaller code means a key that is
    not larger. *)
Lemma category_code_key (cats : list (option string))
    (x z : option string) :
  StronglySorted (fun a b => age_leb a b = true) cats ->
  In x cats -> In z cats ->
  (category_code cats x <= category_code cats z)%nat ->
  age_sort_key x <= age_sort_key z.
Proof.
  induction 1 as [|c cats Hs IH Hf]; simpl; intros Hx Hz Hle; [destruct Hx|].
  unfold text_eqb in Hle.
  destruct (text_eq_dec x c) as [->|Nx].
  - destruct Hz as [<-|Hz]; [apply Qle_refl|].
    rewrite Forall_forall in Hf. apply Qle_bool_iff. exact (Hf z Hz).
  - destruct (text_eq_dec z c) as [->|Nz]; [lia|].
    destruct Hx as [Hx|Hx]; [congruence|].
    destruct Hz as [Hz|Hz]; [congruence|].
    apply IH; auto. lia.
Qed.

(** The rows the guard lets through. *)
Lemma in_kept (df_micro : list Observation) (y : Z)
    (locations : list string) (kept : list Observation) (r : Observation) :
  plot_micro_age_sex df_micro y locations = inr kept ->
  (In r kept <->
   In r df_micro /\ year r = Some (whole y) /\ isin (location r) locations = true /\
   (exists v, value r = Some v) /\ isin (sex r) ["Male"; "Female"] = true).
Proof.
  unfold plot_micro_age_sex.
  destruct (negb _).
  - destruct (sorted_text _); discriminate.
  - intros [= <-]. rewrite filter_In, in_micro_sub. tauto.
Qed.

Lemma micro_axes_inr (kept : list Observation) (locations : list string)
    (axes : list (string * list (string * list Observation))) :
  micro_axes kept locations = inr axes ->
  ~ In None (map age kept) /\
  axes =
    map (fun loc =>
           (loc,
            map (fun sx =>
                   (sx,
                    filter (fun r => text_eqb (sex r) (Some sx))
                      (filter (fun r => text_eqb (location r) (Some loc))
                         (argsort (micro_leb (age_categories kept)) kept))))
                ["Female"; "Male"]))
        locations.
Proof.
  unfold micro_axes.
  destruct (existsb isna (age_categories kept)) eqn:E; [discriminate|].
  intros [= <-]. split; [|reflexivity].
  intros Hnone.
  assert (existsb isna (age_categories kept) = true); [|congruence].
  apply existsb_exists. exists None. split; [|reflexivity].
  apply (proj2 (argsort_In age_leb _ _)). now apply in_unique.
Qed.

(** A series of the micro chart, found through its chart and its label. *)
Lemma micro_series_eq (df_micro : list Observation) (y : Z)
    (locations : list string)
    (axes : list (string * list (string * list Observation)))
    (loc sx : string) (series : list (string * list Observation))
    (gg : list Observation) :
  micro_chart df_micro y locations = inr axes ->
  In (loc, series) axes -> In (sx, gg) series ->
  exists kept,
    plot_micro_age_sex df_micro y locations = inr kept /\
    ~ In None (map age kept) /\
    In loc locations /\ In sx ["Female"; "Male"] /\
    gg = filter (fun r => text_eqb (sex r) (Some sx))
           (filter (fun r => text_eqb (location r) (Some loc))
              (argsort (micro_leb (age_categories kept)) kept)).
Proof.
  unfold micro_chart.
  destruct (plot_micro_age_sex df_micro y locations) as [e|kept] eqn:E;
    [discriminate|].
  intros Hax Hloc Hsx.
  apply micro_axes_inr in Hax. destruct Hax as [Hage ->].
  apply in_map_iff in Hloc. destruct Hloc as (l & [= <- <-] & Hl).
  destruct Hsx as [Hs|[Hs|[]]]; injection Hs as <- <-;
    exists kept; repeat split; simpl; auto.
Qed.

(** X14: when the micro chart is drawn there is one chart per requested
    location, in the order requested, each with the series "Female" and
    "Male"; a series holds exactly the rows of the requested year with that
    location and sex that have a value. *)
Theorem micro_series_rows (df_micro : list Observation) (y : Z)
    (locations : list string)
    (axes : list (string * list (string * list Observation))) :
  micro_chart df_micro y locations = inr axes ->
  map fst axes = locations /\
  forall loc series, In (loc, series) axes ->
    map fst series = ["Female"; "Male"] /\
    forall sx gg, In (sx, gg) series ->
      forall r, In r gg <->
                In r df_micro /\ year r = Some (whole y) /\
                location r = Some loc /\ sex r = Some sx /\
                exists v, value r = Some v.
Proof.
  intros Hchart. split.
  - unfold micro_chart in Hchart.
    destruct (plot_micro_age_sex df_micro y locations) as [e|kept];
      [discriminate|].
    apply micro_axes_inr in Hchart. destruct Hchart as [_ ->].
    rewrite map_map. simpl. apply map_id.
  - intros loc series Hloc. split.
    + unfold micro_chart in Hchart.
      destruct (plot_micro_age_sex df_micro y locations) as [e|kept];
        [discriminate|].
      apply micro_axes_inr in Hchart. destruct Hchart as [_ ->].
      apply in_map_iff in Hloc. destruct Hloc as (l & [= <- <-] & _).
      reflexivity.
    + intros sx gg Hsx r.
      destruct (micro_series_eq _ _ _ _ _ _ _ _ Hchart Hloc Hsx)
        as (kept & Hkept & _ & Hl & Hs & ->).
      rewrite !filter_In, !text_eqb_eq, (argsort_In (micro_leb _)).
      rewrite (in_kept _ _ _ _ r Hkept). split.
      * tauto.
      * intros (Hr & Hy & Hrl & Hrs & Hv). repeat split; auto.
        -- rewrite Hrl. apply isin_In. eauto.
        -- rewrite Hrs. apply isin_In. exists sx. split; [reflexivity|].
           simpl in *. tauto.
Qed.

Lemma micro_series_rows_witness :
  exists axes,
    micro_chart sample_micro_ages 2020 ["Singapore"] = inr axes /\
    map fst axes = ["Singapore"].
Proof.
  destruct (micro_chart sample_micro_ages 2020 ["Singapore"])
    as [e|axes] eqn:E; [vm_compute in E; discriminate|].
  exists axes. split; [reflexivity|].
  exact (proj1 (micro_series_rows _ _ _ _ E)).
Defined.

(** X15: along every series of the micro chart the age bands come in
    ascending order of the number they start with, bands without number
    last. *)
Theorem micro_series_ages_ascend (df_micro : list Observation) (y : Z)
    (locations : list string)
    (axes : list (string * list (string * list Observation)))
    (loc sx : string) (series : list (string * list Observation))
    (gg : list Observation) :
  micro_chart df_micro y locations = inr axes ->
  In (loc, series) axes -> In (sx, gg) series ->
  StronglySorted
    (fun a b => age_sort_key (age a) <= age_sort_key (age b)) gg.
Proof.
  intros Hchart Hloc Hsx.
  destruct (micro_series_eq _ _ _ _ _ _ _ _ Hchart Hloc Hsx)
    as (kept & _ & _ & _ & _ & ->).
  set (cats := age_categories kept).
  assert (Hcats : forall r, In r kept -> In (age r) cats).
  { intros r Hr. apply (proj2 (argsort_In age_leb _ _)).
    apply in_unique. now apply in_map. }
  apply (StronglySorted_weaken_in (fun a b => micro_leb cats a b = true)).
  - intros a b Ha Hb Hab.
    apply filter_In in Ha, Hb.
    destruct Ha as [Ha Hsa], Hb as [Hb Hsb].
    apply filter_In in Ha, Hb.
    destruct Ha as [Ha Hla], Hb as [Hb Hlb].
    apply text_eqb_eq in Hsa, Hsb, Hla, Hlb.
    apply (proj1 (argsort_In (micro_leb cats) _ _)) in Ha, Hb.
    unfold micro_leb in Hab. rewrite Hla, Hlb, Hsa, Hsb in Hab.
    rewrite !(proj2 (text_eqb_eq _ _) eq_refl) in Hab.
    apply Nat.leb_le in Hab.
    apply (category_code_key cats); auto.
    apply (argsort_sorted age_leb age_leb_total age_leb_trans).
  - do 2 apply StronglySorted_filter.
    apply (argsort_sorted (micro_leb cats) (micro_leb_total cats)
             (micro_leb_trans cats)).
Qed.

Lemma micro_series_ages_ascend_witness :
  StronglySorted
    (fun a b => age_sort_key (age a) <= age_sort_key (age b))
    [micro_row "Male" "5-9 years" 1; micro_row "Male" "15-19 years" 4;
     micro_row "Male" "80+ years" 3].
Proof.
  destruct (micro_chart sample_micro_ages 2020 ["Singapore"])
    as [e|axes] eqn:E; [vm_compute in E; discriminate|].
  apply (micro_series_ages_ascend sample_micro_ages 2020 ["Singapore"]
           axes "Singapore" "Male"
           [("Female", [micro_row "Female" "5-9 years" 2;
                        micro_row "Female" "15-19 years" 6]);
            ("Male", [micro_row "Male" "5-9 years" 1;
                      micro_row "Male" "15-19 years" 4;
                      micro_row "Male" "80+ years" 3])]).
  - exact E.
  - vm_compute in E. injection E as <-. left. reflexivity.
  - right. left. reflexivity.
Defined.



